(** * Elevator dispatch: the SCAN route of [ElevatorController]

    A shallow embedding of [src/Elevator/elevator.py].  Python integers are
    [Z]; the two request dictionaries are [gmap Z (option Z)] (origin floor to
    an optional destination, [None] standing for Python's [None]); the set
    [all_stops] is a [gset Z]; lists are lists.  The controller object is a
    record that every method receives and gives back, so that the one field a
    call assigns ([self.direction]) is visible in the result. *)

From stdpp Require Import gmap sorting list.

Set Warnings "-clear-no-such-hyp".

Open Scope Z_scope.

(** ** Data *)

(** [class Direction(IntEnum)]: [UP = 11], [DOWN = 12]. *)
Inductive Direction := UP | DOWN.

Global Instance Direction_eq_dec : EqDecision Direction.
Proof. solve_decision. Defined.

Definition Direction_value (d : Direction) : Z :=
  match d with UP => 11 | DOWN => 12 end.

(** The fields [__init__] creates.  [direction] is [None] until resolved. *)
Record ElevatorController := mkController {
  current_floor : Z;
  max_floor : Z;
  direction : option Direction;
  stops : list Z
}.

(** [ElevatorController(initial_floor, max_floor)]. *)
Definition init (initial_floor max_floor : Z) : ElevatorController :=
  {| current_floor := initial_floor; max_floor := max_floor;
     direction := None; stops := [] |}.

Definition set_direction (d : option Direction) (self : ElevatorController)
  : ElevatorController :=
  {| current_floor := current_floor self; max_floor := max_floor self;
     direction := d; stops := stops self |}.

Definition set_current_floor (f : Z) (self : ElevatorController)
  : ElevatorController :=
  {| current_floor := f; max_floor := max_floor self;
     direction := direction self; stops := stops self |}.

(** The dictionary [_parse_commands] returns. *)
Record Requests := mkRequests {
  up_requests : gmap Z (option Z);
  down_requests : gmap Z (option Z);
  internal_requests : list Z
}.

(** ** Python primitives *)

(** [sorted(xs)] and [sorted(xs, reverse=True)] on integers. *)
Definition sorted (l : list Z) : list Z := merge_sort Z.le l.
Definition sorted_reverse (l : list Z) : list Z := merge_sort (flip Z.le) l.

(** [d.keys()], in no particular order (every use sorts it). *)
Definition keys (d : gmap Z (option Z)) : list Z := elements (dom d).

(** Truth value of a dictionary entry in [if target:]: [None] and [0] are
    false, every other integer is true. *)
Definition truthy (target : option Z) : bool :=
  match target with
  | None => false
  | Some t => negb (t =? 0)
  end.

(** Truth value of [self.direction]: [None] is false, both members of the
    enumeration (11 and 12) are true. *)
Definition truthy_direction (d : option Direction) : bool :=
  match d with
  | None => false
  | Some v => negb (Direction_value v =? 0)
  end.

(** ** [_parse_commands] *)

(** One iteration of the [for location, command in commands] loop. *)
Definition parse_step (r : Requests) (lc : Z * Z) : Requests :=
  let '(location, command) := lc in
  if location =? 11 then
    {| up_requests := up_requests r; down_requests := down_requests r;
       internal_requests := internal_requests r ++ [command] |}
  else if command =? Direction_value UP then
    {| up_requests := <[location := None]> (up_requests r);
       down_requests := down_requests r;
       internal_requests := internal_requests r |}
  else if command =? Direction_value DOWN then
    {| up_requests := up_requests r;
       down_requests := <[location := None]> (down_requests r);
       internal_requests := internal_requests r |}
  else if command >? location then
    {| up_requests := <[location := Some command]> (up_requests r);
       down_requests := down_requests r;
       internal_requests := internal_requests r |}
  else
    {| up_requests := up_requests r;
       down_requests := <[location := Some command]> (down_requests r);
       internal_requests := internal_requests r |}.

Definition empty_requests : Requests :=
  {| up_requests := ∅; down_requests := ∅; internal_requests := [] |}.

Definition _parse_commands (commands : list (Z * Z)) : Requests :=
  foldl parse_step empty_requests commands.

(** ** [_determine_initial_direction] *)

Definition _determine_initial_direction (self : ElevatorController)
    (up_floors down_floors internal_floors : list Z) : Direction :=
  let up_count := length (filter (λ f, current_floor self ≤ f) up_floors) in
  let down_count := length (filter (λ f, f ≤ current_floor self) down_floors) in
  let internal_up :=
    length (filter (λ f, current_floor self < f) internal_floors) in
  let internal_down :=
    length (filter (λ f, f < current_floor self) internal_floors) in
  let total_up := (up_count + internal_up)%nat in
  let total_down := (down_count + internal_down)%nat in
  if bool_decide (total_down ≤ total_up)%nat then UP else DOWN.

(** ** [_calculate_optimal_route] *)

(** Body of the two [for floor in ..._floors] loops: add the origin, then
    its destination when that is true.  [floor] ranges over the keys of
    [d], so the subscript [d[floor]] always finds an entry; the last branch
    is never taken (see [add_stops_key]). *)
Definition add_stops (d : gmap Z (option Z)) (all_stops : gset Z) (floor : Z)
  : gset Z :=
  let all_stops := {[floor]} ∪ all_stops in
  match d !! floor with
  | Some target =>
      if truthy target then {[default 0 target]} ∪ all_stops else all_stops
  | None => all_stops
  end.

(** [all_stops] as it stands after [all_stops.discard(current)]. *)
Definition all_stops_of (current : Z) (requests : Requests)
    (up_floors down_floors internal_floors : list Z) : gset Z :=
  let all_stops := ∅ in
  let all_stops := foldl (add_stops (up_requests requests)) all_stops up_floors in
  let all_stops :=
    foldl (add_stops (down_requests requests)) all_stops down_floors in
  let all_stops := all_stops ∪ list_to_set internal_floors in
  all_stops ∖ {[current]}.

(** [any(f > current for f in all_stops)]. *)
Definition any_above (current : Z) (all_stops : gset Z) : bool :=
  bool_decide (Exists (λ f, current < f) (elements all_stops)).

Definition _calculate_optimal_route (self : ElevatorController)
    (requests : Requests) : ElevatorController * list Z :=
  let up_floors := sorted (keys (up_requests requests)) in
  let down_floors := sorted_reverse (keys (down_requests requests)) in
  let internal_floors :=
    sorted (elements (list_to_set (C := gset Z) (internal_requests requests))) in
  let self :=
    if negb (truthy_direction (direction self)) then
      set_direction
        (Some (_determine_initial_direction self up_floors down_floors
                 internal_floors)) self
    else self in
  let current := current_floor self in
  let all_stops :=
    all_stops_of current requests up_floors down_floors internal_floors in
  let route :=
    if bool_decide (direction self = Some UP)
       || (bool_decide (direction self = None) && any_above current all_stops)
    then
      let up_stops :=
        sorted (filter (λ f, current < f) (elements all_stops)) in
      let down_stops :=
        sorted_reverse (filter (λ f, f < current) (elements all_stops)) in
      up_stops ++ down_stops
    else
      let down_stops :=
        sorted_reverse (filter (λ f, f < current) (elements all_stops)) in
      let up_stops :=
        sorted (filter (λ f, current < f) (elements all_stops)) in
      down_stops ++ up_stops in
  (self, route).

(** ** [process_commands] and [simulate] *)

Definition process_commands (self : ElevatorController)
    (commands : list (Z * Z)) : ElevatorController * list Z :=
  let requests := _parse_commands commands in
  _calculate_optimal_route self requests.

(** [simulate], without its printing: the car is moved to each floor of the
    route in turn. *)
Definition simulate (self : ElevatorController) (commands : list (Z * Z))
  : ElevatorController :=
  let '(self, route) := process_commands self commands in
  foldl (λ self floor, set_current_floor floor self) self route.

(** The four batches of [main], each run on a fresh controller. *)
Definition test_4_3 : list (Z * Z) := [(5, 12); (10, 12); (3, 12); (7, 11)].
Definition test_4_4 : list (Z * Z) := [(5, 12); (10, 12); (3, 11); (7, 11)].
Definition test_4_5 : list (Z * Z) := [(5, 12); (10, 12); (3, 12); (7, 11)].
Definition test_4_6 : list (Z * Z) := [(5, 12); (10, 12); (8, 12); (7, 11)].

(** ** Vocabulary of the specification *)

(** A request the specification calls valid for a building of [maxf]
    floors: the origin is a floor or the cab sentinel 11, the command is a
    floor or one of the two direction markers. *)
Definition valid_request (maxf : Z) (lc : Z * Z) : Prop :=
  (1 ≤ lc.1 ≤ maxf ∨ lc.1 = 11) ∧ (1 ≤ lc.2 ≤ maxf ∨ lc.2 = 11 ∨ lc.2 = 12).

Global Instance valid_request_dec maxf lc : Decision (valid_request maxf lc).
Proof. unfold valid_request. apply _. Defined.

(** The destinations a hall dictionary knows: the values that are not
    [None]. *)
Definition known_destinations (d : gmap Z (option Z)) : gset Z :=
  list_to_set (omap snd (map_to_list d)).

(** StopSet: hall-up origins, their known destinations, hall-down origins,
    their known destinations and cab destinations, without the current
    floor. *)
Definition StopSet (current : Z) (r : Requests) : gset Z :=
  (dom (up_requests r) ∪ known_destinations (up_requests r)
   ∪ dom (down_requests r) ∪ known_destinations (down_requests r)
   ∪ list_to_set (internal_requests r)) ∖ {[current]}.

(** The set [all_stops] that a call computes, as a function of the
    controller and the classified requests. *)
Definition stops_of (self : ElevatorController) (r : Requests) : gset Z :=
  all_stops_of (current_floor self) r
    (sorted (keys (up_requests r)))
    (sorted_reverse (keys (down_requests r)))
    (sorted (elements (list_to_set (C := gset Z) (internal_requests r)))).

(** The two halves of a route. *)
Definition above (current : Z) (s : gset Z) : list Z :=
  sorted (filter (λ f, current < f) (elements s)).
Definition below (current : Z) (s : gset Z) : list Z :=
  sorted_reverse (filter (λ f, f < current) (elements s)).

(** The controller after the direction test of lines 101-105. *)
Definition resolved (self : ElevatorController) (r : Requests)
  : ElevatorController :=
  match direction self with
  | Some _ => self
  | None =>
      set_direction
        (Some (_determine_initial_direction self
                 (sorted (keys (up_requests r)))
                 (sorted_reverse (keys (down_requests r)))
                 (sorted (elements
                            (list_to_set (C := gset Z) (internal_requests r))))))
        self
  end.

(** No hall dictionary of a valid batch holds the destination 0, the one
    integer that [if target:] would skip. *)
Definition dest_nonzero (d : gmap Z (option Z)) : Prop :=
  ∀ o t, d !! o = Some (Some t) → t ≠ 0.

(** The direction of each leg as [simulate] prints it:
    [floor > self.current_floor] is an upward leg, anything else a downward
    one, and the car then stands at [floor]. *)
Fixpoint legs (current : Z) (route : list Z) : list bool :=
  match route with
  | [] => []
  | floor :: route => bool_decide (current < floor) :: legs floor route
  end.

(** Number of places where two consecutive legs differ. *)
Fixpoint reversals (l : list bool) : nat :=
  match l with
  | a :: (b :: _) as tl => ((if eqb a b then 0 else 1) + reversals tl)%nat
  | _ => 0%nat
  end.

(** The resolver's two totals as the specification words them, on the
    classified sets: hall-up origins at or above the current floor plus cab
    destinations strictly above it, and the mirror image. *)
Definition totalUp (current : Z) (r : Requests) : nat :=
  (size (filter (λ o, current ≤ o)%Z (dom (up_requests r)))
   + size (filter (λ f, current < f)%Z
             (list_to_set (C := gset Z) (internal_requests r))))%nat.

Definition totalDown (current : Z) (r : Requests) : nat :=
  (size (filter (λ o, o ≤ current)%Z (dom (down_requests r)))
   + size (filter (λ f, f < current)%Z
             (list_to_set (C := gset Z) (internal_requests r))))%nat.

(** A call either returns or raises.  [InvalidRequest] is the failure the
    specification names; the source defines no exception class. *)
Inductive exn := InvalidRequest.

Inductive outcome (A : Type) :=
  | Returns (a : A)
  | Raises (e : exn).
Arguments Returns {A} a.
Arguments Raises {A} e.

(** [_parse_commands] as a call that may fail.  Its body has no [raise]
    statement, and its operations (tuple unpacking, [==] and [>] on
    integers, a dictionary store, a list append) do not fail on a list of
    integer pairs: every call returns. *)
Definition classify (commands : list (Z * Z)) : outcome Requests :=
  Returns (_parse_commands commands).

(** The life of a controller: calls of [process_commands], and the caller
    moving the car ([self.current_floor = floor] in [simulate]). *)
Inductive step : ElevatorController → ElevatorController → Prop :=
  | step_process self commands :
      step self (process_commands self commands).1
  | step_move self floor :
      step self (set_current_floor floor self).

(** ** The callers and their vocabulary *)

(** [run_test], without its printing: a fresh controller, with the default
    [max_floor = 10], runs one simulation. *)
Definition run_test (initial_floor : Z) (commands : list (Z * Z))
  : ElevatorController :=
  simulate (init initial_floor 10) commands.

(** The requests that do not take the first branch of the classification
    loop ([location == 11]), and the commands of those that do. *)
Definition hall_requests (commands : list (Z * Z)) : list (Z * Z) :=
  filter (λ lc, lc.1 ≠ 11) commands.

Definition cab_destinations (commands : list (Z * Z)) : list Z :=
  (filter (λ lc, lc.1 = 11) commands).*2.

(** The dictionary a hall request is written to: [up_requests] for the
    marker 11 and for a floor above the origin, [down_requests] for the
    marker 12 and for any other integer. *)
Definition goes_up (o c : Z) : Prop := c = 11 ∨ (c ≠ 12 ∧ o < c).

Global Instance goes_up_dec o c : Decision (goes_up o c).
Proof. unfold goes_up. apply _. Defined.

(** The value a hall request writes: [None] for a marker, the floor
    otherwise. *)
Definition stored (c : Z) : option Z :=
  if decide (c = 11 ∨ c = 12) then None else Some c.

(** Floors covered when the car visits [route] in order from [current]. *)
Fixpoint travel (current : Z) (route : list Z) : Z :=
  match route with
  | [] => 0
  | floor :: route => Z.abs (floor - current) + travel floor route
  end.

(** Classified requests that the scheduler cannot tell apart: the same two
    dictionaries and the same cab destinations up to order. *)
Definition req_equiv (r1 r2 : Requests) : Prop :=
  up_requests r1 = up_requests r2
  ∧ down_requests r1 = down_requests r2
  ∧ internal_requests r1 ≡ₚ internal_requests r2.

(** * Properties *)

(** ** The batches of [main] *)

Example run_4_3 : (process_commands (init 1 10) test_4_3).2 = [3; 5; 7; 10].
Proof. vm_compute. reflexivity. Qed.
Example run_4_4 : (process_commands (init 10 10) test_4_4).2 = [7; 5; 3].
Proof. vm_compute. reflexivity. Qed.
Example run_4_5 : (process_commands (init 4 10) test_4_5).2 = [5; 7; 10; 3].
Proof. vm_compute. reflexivity. Qed.
Example run_4_6 : (process_commands (init 1 10) test_4_6).2 = [5; 7; 8; 10].
Proof. vm_compute. reflexivity. Qed.

(** ** Sorting *)

Global Instance Z_ge_total : Total (flip Z.le).
Proof. intros x y. unfold flip. lia. Qed.

Lemma sorted_perm l : sorted l ≡ₚ l.
Proof. apply merge_sort_Permutation. Qed.

Lemma sorted_reverse_perm l : sorted_reverse l ≡ₚ l.
Proof. apply merge_sort_Permutation. Qed.

Lemma elem_of_sorted x l : x ∈ sorted l ↔ x ∈ l.
Proof. by rewrite sorted_perm. Qed.

Lemma elem_of_sorted_reverse x l : x ∈ sorted_reverse l ↔ x ∈ l.
Proof. by rewrite sorted_reverse_perm. Qed.

(** A sorted list without repetitions is strictly sorted. *)
Lemma Sorted_le_lt l : NoDup l → Sorted Z.le l → Sorted Z.lt l.
Proof.
  intros Hnd Hs. apply Sorted_StronglySorted in Hs; [|apply _].
  apply StronglySorted_Sorted.
  induction Hs as [|x l Hl IH Hx]; [constructor|].
  apply NoDup_cons in Hnd as [Hnx Hnd].
  constructor; [by apply IH|].
  apply Forall_forall. intros y Hy.
  pose proof (proj1 (Forall_forall _ _) Hx y Hy).
  assert (x ≠ y) by (intros ->; done). lia.
Qed.

Lemma Sorted_ge_gt l : NoDup l → Sorted (flip Z.le) l → Sorted (flip Z.lt) l.
Proof.
  intros Hnd Hs. apply Sorted_StronglySorted in Hs; [|apply _].
  apply StronglySorted_Sorted.
  induction Hs as [|x l Hl IH Hx]; [constructor|].
  apply NoDup_cons in Hnd as [Hnx Hnd].
  constructor; [by apply IH|].
  apply Forall_forall. intros y Hy.
  pose proof (proj1 (Forall_forall _ _) Hx y Hy) as Hxy.
  assert (x ≠ y) by (intros ->; done). unfold flip in *. lia.
Qed.

Lemma above_spec current s :
  Sorted Z.lt (above current s) ∧ NoDup (above current s) ∧
  ∀ f, f ∈ above current s ↔ f ∈ s ∧ current < f.
Proof.
  unfold above.
  assert (NoDup (sorted (filter (λ f, current < f) (elements s)))) as Hnd.
  { rewrite sorted_perm. apply NoDup_filter, NoDup_elements. }
  split_and!; [|done|].
  - apply Sorted_le_lt; [done|]. apply Sorted_merge_sort; apply _.
  - intros f. rewrite elem_of_sorted, list_elem_of_filter, elem_of_elements.
    tauto.
Qed.

Lemma below_spec current s :
  Sorted (flip Z.lt) (below current s) ∧ NoDup (below current s) ∧
  ∀ f, f ∈ below current s ↔ f ∈ s ∧ f < current.
Proof.
  unfold below.
  assert (NoDup (sorted_reverse (filter (λ f, f < current) (elements s))))
    as Hnd.
  { rewrite sorted_reverse_perm. apply NoDup_filter, NoDup_elements. }
  split_and!; [|done|].
  - apply Sorted_ge_gt; [done|]. apply Sorted_merge_sort; apply _.
  - intros f.
    rewrite elem_of_sorted_reverse, list_elem_of_filter, elem_of_elements.
    tauto.
Qed.

(** ** What a call computes *)

Lemma resolved_current_floor self r :
  current_floor (resolved self r) = current_floor self.
Proof. unfold resolved. by destruct (direction self). Qed.

Lemma resolved_direction_set self r : is_Some (direction (resolved self r)).
Proof. unfold resolved. destruct (direction self) eqn:E; rewrite ?E; eauto. Qed.

Lemma truthy_direction_is_Some d : truthy_direction d = true ↔ is_Some d.
Proof.
  destruct d as [[]|]; simpl; split; intros H; eauto; done.
Qed.

Lemma calculate_state self r :
  (_calculate_optimal_route self r).1 = resolved self r.
Proof.
  unfold _calculate_optimal_route, resolved.
  by destruct (direction self) as [[]|].
Qed.

Lemma calculate_route self r :
  (_calculate_optimal_route self r).2 =
    match direction (resolved self r) with
    | Some UP =>
        above (current_floor self) (stops_of self r)
        ++ below (current_floor self) (stops_of self r)
    | _ =>
        below (current_floor self) (stops_of self r)
        ++ above (current_floor self) (stops_of self r)
    end.
Proof.
  unfold _calculate_optimal_route, resolved, stops_of, above, below.
  destruct (direction self) as [[]|] eqn:E; simpl; rewrite ?E; simpl; try done.
  by destruct (_determine_initial_direction _ _ _ _).
Qed.

(** ** The stop set *)

Lemma elem_of_known_destinations d f :
  f ∈ known_destinations d ↔ ∃ o, d !! o = Some (Some f).
Proof.
  unfold known_destinations.
  rewrite elem_of_list_to_set, list_elem_of_omap. split.
  - intros ([o t] & Hin & Heq). simpl in Heq. subst t.
    exists o. by apply elem_of_map_to_list.
  - intros [o Ho]. exists (o, Some f). split; [|done].
    by apply elem_of_map_to_list.
Qed.

Lemma add_stops_key (d : gmap Z (option Z)) floor :
  floor ∈ keys d → is_Some (d !! floor).
Proof. unfold keys. rewrite elem_of_elements. apply elem_of_dom. Qed.

Lemma elem_of_add_stops d acc floor x :
  x ∈ add_stops d acc floor ↔
  x ∈ acc ∨ x = floor ∨ (d !! floor = Some (Some x) ∧ x ≠ 0).
Proof.
  unfold add_stops.
  destruct (d !! floor) as [[t|]|] eqn:E; simpl;
    [destruct (Z.eqb_spec t 0) as [->|Hne]; simpl|..];
    rewrite ?elem_of_union, ?elem_of_singleton; naive_solver.
Qed.

Lemma elem_of_foldl_add_stops d l acc x :
  x ∈ foldl (add_stops d) acc l ↔
  x ∈ acc ∨ x ∈ l ∨ (∃ o, o ∈ l ∧ d !! o = Some (Some x) ∧ x ≠ 0).
Proof.
  revert acc. induction l as [|a l IH]; intros acc; simpl.
  - split; [eauto|]. intros [?|[H|(o & H & _)]]; [done|inversion H..].
  - rewrite IH, elem_of_add_stops. split.
    + intros [[?|[->|[? ?]]]|[?|(o & ? & ? & ?)]]; eauto.
      * right; left; left.
      * right; right. exists a. split; [left|done].
      * right; left. by right.
      * right; right. exists o. split; [by right|done].
    + intros [?|[H|(o & H & ? & ?)]]; eauto.
      * apply elem_of_cons in H as [->|?]; eauto.
      * apply elem_of_cons in H as [->|?]; eauto 10.
Qed.

(** Membership in the computed [all_stops]: the specification's StopSet,
    except that a destination equal to 0 is not added. *)
Lemma elem_of_stops_of self r x :
  x ∈ stops_of self r ↔
  x ≠ current_floor self ∧
  (x ∈ dom (up_requests r)
   ∨ (x ∈ known_destinations (up_requests r) ∧ x ≠ 0)
   ∨ x ∈ dom (down_requests r)
   ∨ (x ∈ known_destinations (down_requests r) ∧ x ≠ 0)
   ∨ x ∈ internal_requests r).
Proof.
  unfold stops_of, all_stops_of, keys.
  rewrite elem_of_difference, elem_of_singleton, elem_of_union.
  rewrite elem_of_list_to_set, elem_of_sorted, elem_of_elements.
  rewrite elem_of_list_to_set.
  rewrite !elem_of_foldl_add_stops.
  rewrite elem_of_sorted, elem_of_sorted_reverse, !elem_of_elements.
  rewrite !elem_of_known_destinations.
  setoid_rewrite elem_of_sorted. setoid_rewrite elem_of_sorted_reverse.
  setoid_rewrite elem_of_elements. setoid_rewrite elem_of_dom.
  split.
  - intros [H Hne]. split; [done|]. naive_solver.
  - intros [Hne H]. split; [|done].
    destruct H as [H|[[[o H] ?]|[H|[[[o H] ?]|H]]]]; eauto 10.
Qed.

Lemma stops_of_subseteq self r :
  stops_of self r ⊆ StopSet (current_floor self) r.
Proof.
  intros x. rewrite elem_of_stops_of. unfold StopSet.
  rewrite elem_of_difference, !elem_of_union, elem_of_list_to_set.
  rewrite elem_of_singleton. tauto.
Qed.

Lemma StopSet_stops_of self r x :
  x ∈ StopSet (current_floor self) r → x ≠ 0 → x ∈ stops_of self r.
Proof.
  rewrite elem_of_stops_of. unfold StopSet.
  rewrite elem_of_difference, !elem_of_union, elem_of_list_to_set.
  rewrite elem_of_singleton. tauto.
Qed.

(** ** Classification, one request at a time *)

Lemma parse_commands_snoc commands lc :
  _parse_commands (commands ++ [lc]) = parse_step (_parse_commands commands) lc.
Proof. unfold _parse_commands. by rewrite foldl_app. Qed.

Lemma dest_nonzero_insert d o v :
  dest_nonzero d → v ≠ Some 0 → dest_nonzero (<[o := v]> d).
Proof.
  intros Hd Hv o' t. rewrite lookup_insert. case_decide.
  - intros [= ->] ->. done.
  - apply Hd.
Qed.

Lemma parse_step_dest_nonzero maxf r lc :
  valid_request maxf lc →
  dest_nonzero (up_requests r) ∧ dest_nonzero (down_requests r) →
  dest_nonzero (up_requests (parse_step r lc))
  ∧ dest_nonzero (down_requests (parse_step r lc)).
Proof.
  destruct lc as [location command]. unfold valid_request, parse_step. simpl.
  intros [_ Hc] [Hu Hd].
  repeat case_match; simpl; (split; [|]); try done;
    apply dest_nonzero_insert; try done; intros [= ->]; lia.
Qed.

Lemma parse_commands_dest_nonzero maxf commands :
  Forall (valid_request maxf) commands →
  dest_nonzero (up_requests (_parse_commands commands))
  ∧ dest_nonzero (down_requests (_parse_commands commands)).
Proof.
  induction commands as [|lc commands IH] using rev_ind.
  - intros _. split; intros o t; simpl; by rewrite lookup_empty.
  - intros [Hall Hlc%Forall_inv]%Forall_app.
    rewrite parse_commands_snoc.
    eapply parse_step_dest_nonzero; [exact Hlc|by apply IH].
Qed.

Lemma stops_of_StopSet self r :
  dest_nonzero (up_requests r) → dest_nonzero (down_requests r) →
  stops_of self r = StopSet (current_floor self) r.
Proof.
  intros Hu Hd. apply set_eq. intros x. split; [apply stops_of_subseteq|].
  rewrite elem_of_stops_of. unfold StopSet.
  rewrite elem_of_difference, !elem_of_union, elem_of_list_to_set.
  rewrite elem_of_singleton, !elem_of_known_destinations.
  intros [H Hne]. split; [done|].
  destruct H as [[[[H|[o H]]|H]|[o H]]|H]; eauto 10.
Qed.

(** ** The route is the stop set *)

Lemma above_below_disjoint current s f :
  f ∈ above current s → f ∈ below current s → False.
Proof.
  intros Ha%above_spec Hb%below_spec. lia.
Qed.

Lemma NoDup_route self r : NoDup (_calculate_optimal_route self r).2.
Proof.
  rewrite calculate_route.
  pose proof (above_spec (current_floor self) (stops_of self r))
    as (_ & Ha & _).
  pose proof (below_spec (current_floor self) (stops_of self r))
    as (_ & Hb & _).
  destruct (direction (resolved self r)) as [[]|];
    apply NoDup_app; split_and!; try done;
    intros f ? ?; by eapply above_below_disjoint.
Qed.

Lemma elem_of_route self r f :
  f ∈ (_calculate_optimal_route self r).2 ↔ f ∈ stops_of self r.
Proof.
  rewrite calculate_route.
  pose proof (above_spec (current_floor self) (stops_of self r))
    as (_ & _ & Ha).
  pose proof (below_spec (current_floor self) (stops_of self r))
    as (_ & _ & Hb).
  assert (f ∈ stops_of self r → f ≠ current_floor self) as Hne.
  { rewrite elem_of_stops_of. tauto. }
  destruct (direction (resolved self r)) as [[]|];
    rewrite elem_of_app, Ha, Hb; (split; [tauto|]);
    intros H; specialize (Hne H); (split; [left; split; [done|]|]) || idtac;
    destruct (Z.lt_total f (current_floor self)) as [?|[?|?]]; tauto.
Qed.

(** C1.  For a valid batch the route of [process_commands] holds exactly the
    floors of the StopSet (hall-up origins, their known destinations,
    hall-down origins, their known destinations, cab destinations, without
    the current floor), each of them once. *)
Theorem C1_route_is_StopSet self commands :
  Forall (valid_request (max_floor self)) commands →
  let route := (process_commands self commands).2 in
  NoDup route
  ∧ (∀ f, f ∈ route ↔ f ∈ StopSet (current_floor self) (_parse_commands commands))
  ∧ route ≡ₚ elements (StopSet (current_floor self) (_parse_commands commands))
  ∧ current_floor self ∉ route.
Proof.
  intros Hvalid route. subst route. unfold process_commands.
  destruct (parse_commands_dest_nonzero _ _ Hvalid) as [Hu Hd].
  pose proof (stops_of_StopSet self _ Hu Hd) as Heq.
  assert (∀ f, f ∈ (_calculate_optimal_route self (_parse_commands commands)).2
               ↔ f ∈ StopSet (current_floor self) (_parse_commands commands))
    as Hiff.
  { intros f. by rewrite elem_of_route, Heq. }
  split_and!; [apply NoDup_route|done| |].
  - apply NoDup_Permutation; [apply NoDup_route|apply NoDup_elements|].
    intros f. by rewrite Hiff, elem_of_elements.
  - rewrite Hiff. unfold StopSet. set_solver.
Qed.

Lemma C1_route_is_StopSet_witness :
  let route := (process_commands (init 4 10) test_4_5).2 in
  NoDup route
  ∧ (∀ f, f ∈ route ↔ f ∈ StopSet 4 (_parse_commands test_4_5))
  ∧ route ≡ₚ elements (StopSet 4 (_parse_commands test_4_5))
  ∧ 4 ∉ route.
Proof.
  apply (C1_route_is_StopSet (init 4 10) test_4_5).
  unfold test_4_5. repeat constructor; simpl; lia.
Defined.

(** ** Travel direction along a route *)

Section runs.
Implicit Types (l : list Z) (c : Z).

Lemma legs_app l1 l2 c :
  legs c (l1 ++ l2) = legs c l1 ++ legs (default c (last l1)) l2.
Proof.
  revert c. induction l1 as [|x l1 IH]; intros c; [done|].
  simpl legs. rewrite IH. simpl. f_equal. f_equal.
  rewrite last_cons. by destruct (last l1).
Qed.

Lemma last_Forall (P : Z → Prop) l c :
  P c → Forall P l → P (default c (last l)).
Proof.
  intros Hc Hl. destruct (last l) as [y|] eqn:E; [|done].
  simpl. eapply Forall_forall; [exact Hl|]. by eapply last_Some_elem_of.
Qed.

Lemma Sorted_lt_head x l : Sorted Z.lt (x :: l) → Forall (λ y, x < y) l.
Proof.
  intros Hs. apply Sorted_StronglySorted in Hs; [|apply _].
  by apply StronglySorted_inv in Hs as [_ ?].
Qed.

Lemma Sorted_gt_head x l :
  Sorted (flip Z.lt) (x :: l) → Forall (λ y, y < x) l.
Proof.
  intros Hs. apply Sorted_StronglySorted in Hs.
  - by apply StronglySorted_inv in Hs as [_ ?].
  - intros a b c'. unfold flip. lia.
Qed.

Lemma legs_ascending l c :
  Sorted Z.lt l → Forall (λ f, c < f) l →
  legs c l = replicate (length l) true.
Proof.
  revert c. induction l as [|x l IH]; intros c Hs Hc; [done|].
  simpl. apply Forall_cons in Hc as [Hx _].
  rewrite bool_decide_eq_true_2 by done. f_equal.
  apply IH; [by apply Sorted_inv in Hs as [? _]|by apply Sorted_lt_head].
Qed.

Lemma legs_descending l c :
  Sorted (flip Z.lt) l → Forall (λ f, f < c) l →
  legs c l = replicate (length l) false.
Proof.
  revert c. induction l as [|x l IH]; intros c Hs Hc; [done|].
  simpl. apply Forall_cons in Hc as [Hx _].
  rewrite bool_decide_eq_false_2 by lia. f_equal.
  apply IH; [by apply Sorted_inv in Hs as [? _]|by apply Sorted_gt_head].
Qed.

Lemma reversals_replicate n b : reversals (replicate n b) = 0%nat.
Proof.
  induction n as [|[|n] IH]; [done..|].
  change ((if eqb b b then 0 else 1) + reversals (replicate (S n) b)
          = 0)%nat.
  rewrite IH. by destruct b.
Qed.

Lemma reversals_two_runs n m b :
  (reversals (replicate n b ++ replicate m (negb b)) ≤ 1)%nat.
Proof.
  induction n as [|[|n] IH].
  - simpl. rewrite reversals_replicate. lia.
  - destruct m as [|m]; [simpl; lia|].
    change ((if eqb b (negb b) then 0 else 1)
            + reversals (replicate (S m) (negb b)) ≤ 1)%nat.
    rewrite reversals_replicate. destruct b; simpl; lia.
  - change ((if eqb b b then 0 else 1)
            + reversals (replicate (S n) b ++ replicate m (negb b)) ≤ 1)%nat.
    destruct b; simpl in *; lia.
Qed.

(** An ascending run above [c] followed by a descending run below it, or
    the other way round, turns the car at most once. *)
Lemma reversals_up_down c up_run down_run :
  Sorted Z.lt up_run → Forall (λ f, c < f) up_run →
  Sorted (flip Z.lt) down_run → Forall (λ f, f < c) down_run →
  (reversals (legs c (up_run ++ down_run)) ≤ 1)%nat
  ∧ (reversals (legs c (down_run ++ up_run)) ≤ 1)%nat.
Proof.
  intros Hus Hu Hds Hd. rewrite !legs_app.
  rewrite (legs_ascending up_run c), (legs_descending down_run c) by done.
  rewrite (legs_descending down_run), (legs_ascending up_run).
  - split; [apply (reversals_two_runs _ _ true)
           |apply (reversals_two_runs _ _ false)].
  - done.
  - eapply Forall_impl; [exact Hu|]. intros f Hf. simpl in *.
    assert (default c (last down_run) ≤ c); [|lia].
    apply (last_Forall (λ y, y ≤ c)); [lia|].
    eapply Forall_impl; [exact Hd|]. intros y Hy. simpl in *. lia.
  - done.
  - eapply Forall_impl; [exact Hd|]. intros f Hf. simpl in *.
    assert (c ≤ default c (last up_run)); [|lia].
    apply (last_Forall (λ y, c ≤ y)); [lia|].
    eapply Forall_impl; [exact Hu|]. intros y Hy. simpl in *. lia.
Qed.
End runs.

(** C2.  The route of [process_commands] is an ascending run of floors
    above the current floor and a descending run of floors below it, the
    ascending run first when the direction in force is UP and the descending
    run first when it is DOWN; the car turns at most once on the way. *)
Theorem C2_two_monotone_runs self commands :
  let self' := (process_commands self commands).1 in
  let route := (process_commands self commands).2 in
  let current := current_floor self in
  ∃ up_run down_run,
    Sorted Z.lt up_run ∧ Forall (λ f, current < f) up_run
    ∧ Sorted (flip Z.lt) down_run ∧ Forall (λ f, f < current) down_run
    ∧ (direction self' = Some UP ∧ route = up_run ++ down_run
       ∨ direction self' = Some DOWN ∧ route = down_run ++ up_run)
    ∧ (reversals (legs current route) ≤ 1)%nat.
Proof.
  intros self' route current. subst self' route current.
  unfold process_commands.
  set (r := _parse_commands commands).
  rewrite calculate_state, calculate_route.
  pose proof (above_spec (current_floor self) (stops_of self r))
    as (Hus & _ & Hu).
  pose proof (below_spec (current_floor self) (stops_of self r))
    as (Hds & _ & Hd).
  assert (Forall (λ f, current_floor self < f)
            (above (current_floor self) (stops_of self r))) as Hua.
  { apply Forall_forall. intros f Hf. by apply Hu in Hf as [_ ?]. }
  assert (Forall (λ f, f < current_floor self)
            (below (current_floor self) (stops_of self r))) as Hda.
  { apply Forall_forall. intros f Hf. by apply Hd in Hf as [_ ?]. }
  destruct (reversals_up_down _ _ _ Hus Hua Hds Hda) as [Hr1 Hr2].
  exists (above (current_floor self) (stops_of self r)),
         (below (current_floor self) (stops_of self r)).
  split_and!; try done.
  - destruct (resolved_direction_set self r) as [d Hdir]. rewrite Hdir.
    destruct d; [by left|by right].
  - by destruct (direction (resolved self r)) as [[]|].
Qed.

(** ** Classification *)

Lemma parse_commands_cons_app pre lc post :
  _parse_commands (pre ++ lc :: post)
  = foldl parse_step (parse_step (_parse_commands pre) lc) post.
Proof. unfold _parse_commands. by rewrite foldl_app. Qed.

(** A request leaves the entries of every other origin alone. *)
Lemma parse_step_other r lc o :
  lc.1 ≠ o →
  up_requests (parse_step r lc) !! o = up_requests r !! o
  ∧ down_requests (parse_step r lc) !! o = down_requests r !! o.
Proof.
  destruct lc as [location command]. simpl. intros Hne. unfold parse_step.
  repeat case_match; simpl; by rewrite ?lookup_insert_ne.
Qed.

Lemma foldl_parse_step_other post r o :
  Forall (λ lc, lc.1 ≠ o) post →
  up_requests (foldl parse_step r post) !! o = up_requests r !! o
  ∧ down_requests (foldl parse_step r post) !! o = down_requests r !! o.
Proof.
  revert r. induction post as [|lc post IH]; intros r Hall; [done|].
  apply Forall_cons in Hall as [Hlc Hall]. simpl.
  destruct (IH (parse_step r lc) Hall) as [-> ->].
  by apply parse_step_other.
Qed.

(** The entry a hall request writes. *)
Lemma parse_step_hall r o c :
  o ≠ 11 →
  (up_requests (parse_step r (o, c)) !! o,
   down_requests (parse_step r (o, c)) !! o)
  = if decide (c = 11) then (Some None, down_requests r !! o)
    else if decide (c = 12) then (up_requests r !! o, Some None)
    else if decide (o < c) then (Some (Some c), down_requests r !! o)
    else (up_requests r !! o, Some (Some c)).
Proof.
  intros Ho. unfold parse_step.
  destruct (Z.eqb_spec o 11) as [|_]; [done|].
  simpl Direction_value.
  destruct (Z.eqb_spec c 11) as [->|Hc1]; simpl.
  { by rewrite lookup_insert_eq. }
  rewrite decide_False by done.
  destruct (Z.eqb_spec c 12) as [->|Hc2]; simpl.
  { by rewrite lookup_insert_eq. }
  rewrite decide_False by done.
  destruct (Z.gtb_spec c o) as [Hgt|Hle]; simpl.
  - rewrite decide_True by lia. by rewrite lookup_insert_eq.
  - rewrite decide_False by lia. by rewrite lookup_insert_eq.
Qed.

(** The three collections only grow. *)
Lemma parse_step_mono r lc :
  dom (up_requests r) ⊆ dom (up_requests (parse_step r lc))
  ∧ dom (down_requests r) ⊆ dom (down_requests (parse_step r lc))
  ∧ internal_requests r ⊆ internal_requests (parse_step r lc).
Proof.
  destruct lc as [location command]. unfold parse_step.
  repeat case_match; simpl; rewrite ?dom_insert_L;
    split_and!; try done; try apply union_subseteq_r.
  intros x Hx. apply elem_of_app. by left.
Qed.

Lemma foldl_parse_step_mono post r :
  dom (up_requests r) ⊆ dom (up_requests (foldl parse_step r post))
  ∧ dom (down_requests r) ⊆ dom (down_requests (foldl parse_step r post))
  ∧ internal_requests r ⊆ internal_requests (foldl parse_step r post).
Proof.
  revert r. induction post as [|lc post IH]; intros r; [done|]. simpl.
  destruct (IH (parse_step r lc)) as (Hu & Hd & Hi).
  destruct (parse_step_mono r lc) as (Hu' & Hd' & Hi').
  split_and!; etrans; eauto.
Qed.

(** Where a request is recorded by its own iteration. *)
Lemma parse_step_records r o c :
  if decide (o = 11) then c ∈ internal_requests (parse_step r (o, c))
  else o ∈ dom (up_requests (parse_step r (o, c)))
           ∪ dom (down_requests (parse_step r (o, c))).
Proof.
  case_decide as Ho.
  - subst o. unfold parse_step. simpl. apply elem_of_app. right. by left.
  - pose proof (parse_step_hall r o c Ho) as H.
    rewrite elem_of_union, !elem_of_dom.
    repeat case_decide; simplify_eq; (by left; eexists) || (by right; eexists).
Qed.

Lemma parse_commands_records commands o c :
  (o, c) ∈ commands →
  if decide (o = 11) then c ∈ internal_requests (_parse_commands commands)
  else o ∈ dom (up_requests (_parse_commands commands))
           ∪ dom (down_requests (_parse_commands commands)).
Proof.
  intros (pre & post & ->)%list_elem_of_split.
  rewrite parse_commands_cons_app.
  pose proof (parse_step_records (_parse_commands pre) o c) as H.
  destruct (foldl_parse_step_mono post (parse_step (_parse_commands pre) (o, c)))
    as (Hu & Hd & Hi).
  case_decide; [by apply Hi|].
  apply elem_of_union in H as [H|H]; apply elem_of_union; eauto.
Qed.

(** C3, as the specification states it, fails: the batch [(0, 99)] has an
    origin and a command outside 1..10 and the markers, and classification
    returns (the request is stored as a hall-up call from floor 0 to floor
    99) instead of raising. *)
Lemma C3_invalid_batch_is_classified :
  ¬ (∀ maxf commands,
       Exists (λ lc, ¬ valid_request maxf lc) commands →
       classify commands = Raises InvalidRequest).
Proof.
  intros H. specialize (H 10 [(0, 99)]).
  assert (Exists (λ lc, ¬ valid_request 10 lc) [(0, 99)]) as Hex.
  { apply Exists_cons_hd. unfold valid_request. simpl. lia. }
  apply H in Hex. discriminate Hex.
Qed.

(** C3, amended.  Classification checks no range and never raises: every
    batch, valid or not, is classified in full; the command of each cab
    request is in the cab list and the origin of each hall request is a key
    of the hall-up or hall-down dictionary. *)
Theorem C3_classification_never_raises commands :
  ∃ r, classify commands = Returns r
       ∧ ∀ o c, (o, c) ∈ commands →
           if decide (o = 11) then c ∈ internal_requests r
           else o ∈ dom (up_requests r) ∪ dom (down_requests r).
Proof.
  exists (_parse_commands commands). split; [done|].
  intros o c. apply parse_commands_records.
Qed.

(** C4, as the specification states it, fails: on a fresh controller at
    floor 1 the batch [(5, 5)] is not classified like the empty batch (the
    request is stored as [down_requests[5] = 5]) and floor 5, which nothing
    else asks for, is in the route. *)
Lemma C4_degenerate_request_is_kept :
  ¬ (∀ self pre post o,
       o ≠ 11 → o ≠ 12 → o ≠ current_floor self →
       o ∉ StopSet (current_floor self) (_parse_commands (pre ++ post)) →
       _parse_commands (pre ++ (o, o) :: post) = _parse_commands (pre ++ post)
       ∧ o ∉ (process_commands self (pre ++ (o, o) :: post)).2).
Proof.
  intros H.
  destruct (H (init 1 10) [] [] 5) as [_ Hroute]; [done..| |].
  - vm_compute. discriminate.
  - apply Hroute. vm_compute. left.
Qed.

(** What an iteration writes to [up_requests] and to the cab list depends
    on those two alone. *)
Lemma parse_step_up_internal r1 r2 lc :
  up_requests r1 = up_requests r2 →
  internal_requests r1 = internal_requests r2 →
  up_requests (parse_step r1 lc) = up_requests (parse_step r2 lc)
  ∧ internal_requests (parse_step r1 lc) = internal_requests (parse_step r2 lc).
Proof.
  destruct lc as [location command]. intros Hu Hi. unfold parse_step.
  repeat case_match; simpl; by rewrite ?Hu, ?Hi.
Qed.

Lemma foldl_parse_step_up_internal l r1 r2 :
  up_requests r1 = up_requests r2 →
  internal_requests r1 = internal_requests r2 →
  up_requests (foldl parse_step r1 l) = up_requests (foldl parse_step r2 l)
  ∧ internal_requests (foldl parse_step r1 l)
    = internal_requests (foldl parse_step r2 l).
Proof.
  revert r1 r2. induction l as [|lc l IH]; intros r1 r2 Hu Hi; [done|].
  change (foldl parse_step ?r (lc :: l))
    with (foldl parse_step (parse_step r lc) l).
  destruct (parse_step_up_internal r1 r2 lc Hu Hi). by apply IH.
Qed.

Lemma parse_commands_app pre post :
  _parse_commands (pre ++ post) = foldl parse_step (_parse_commands pre) post.
Proof. unfold _parse_commands. by rewrite foldl_app. Qed.

(** A hall request for its own origin floor writes neither [up_requests]
    nor the cab list. *)
Lemma parse_step_degenerate r o :
  o ≠ 11 → o ≠ 12 →
  up_requests (parse_step r (o, o)) = up_requests r
  ∧ internal_requests (parse_step r (o, o)) = internal_requests r.
Proof.
  intros Ho1 Ho2. unfold parse_step. simpl Direction_value.
  destruct (Z.eqb_spec o 11) as [|_]; [done|].
  destruct (Z.eqb_spec o 12) as [|_]; [done|].
  destruct (Z.gtb_spec o o) as [Hgt|_]; [lia|done].
Qed.

(** C4, amended.  A hall request whose command is its own origin floor is
    not dropped: its iteration stores it in the hall-down dictionary with
    destination = origin, the origin stays a hall-down key whatever follows,
    and the floor is in the route when it is not the current floor.  It
    contributes to the hall-down dictionary only: the hall-up dictionary and
    the cab list of the batch are those of the batch without the request. *)
Theorem C4_degenerate_request_is_hall_down self pre post o :
  o ≠ 11 → o ≠ 12 → o ≠ current_floor self →
  down_requests (_parse_commands (pre ++ [(o, o)])) !! o = Some (Some o)
  ∧ o ∈ dom (down_requests (_parse_commands (pre ++ (o, o) :: post)))
  ∧ o ∈ (process_commands self (pre ++ (o, o) :: post)).2
  ∧ up_requests (_parse_commands (pre ++ (o, o) :: post))
    = up_requests (_parse_commands (pre ++ post))
  ∧ internal_requests (_parse_commands (pre ++ (o, o) :: post))
    = internal_requests (_parse_commands (pre ++ post)).
Proof.
  intros Ho1 Ho2 Hcur.
  pose proof (parse_step_hall (_parse_commands pre) o o Ho1) as Hstep.
  rewrite !decide_False in Hstep by lia.
  injection Hstep as _ Hdown.
  assert (o ∈ dom (down_requests (_parse_commands (pre ++ (o, o) :: post))))
    as Hdom.
  { rewrite parse_commands_cons_app.
    apply (foldl_parse_step_mono post). apply elem_of_dom. by eexists. }
  assert (up_requests (_parse_commands (pre ++ (o, o) :: post))
          = up_requests (_parse_commands (pre ++ post))
          ∧ internal_requests (_parse_commands (pre ++ (o, o) :: post))
            = internal_requests (_parse_commands (pre ++ post))) as [Hup Hint].
  { rewrite parse_commands_cons_app, parse_commands_app.
    destruct (parse_step_degenerate (_parse_commands pre) o Ho1 Ho2).
    by apply foldl_parse_step_up_internal. }
  split_and!; [by rewrite parse_commands_snoc|done| |done|done].
  unfold process_commands. rewrite elem_of_route, elem_of_stops_of. tauto.
Qed.

Lemma C4_degenerate_request_is_hall_down_witness :
  down_requests (_parse_commands ([(3, 12)] ++ [(5, 5)])) !! 5 = Some (Some 5)
  ∧ 5 ∈ dom (down_requests (_parse_commands ([(3, 12)] ++ (5, 5) :: [(7, 11)])))
  ∧ 5 ∈ (process_commands (init 1 10) ([(3, 12)] ++ (5, 5) :: [(7, 11)])).2
  ∧ up_requests (_parse_commands ([(3, 12)] ++ (5, 5) :: [(7, 11)]))
    = up_requests (_parse_commands ([(3, 12)] ++ [(7, 11)]))
  ∧ internal_requests (_parse_commands ([(3, 12)] ++ (5, 5) :: [(7, 11)]))
    = internal_requests (_parse_commands ([(3, 12)] ++ [(7, 11)])).
Proof.
  apply (C4_degenerate_request_is_hall_down (init 1 10) [(3, 12)] [(7, 11)] 5);
    simpl; lia.
Defined.

(** C5, as the specification states it, fails: in the batch
    [(3, 7); (3, 11)] the first request stores destination 7 for origin 3 and
    the later direction marker overwrites it with [None]; neither hall
    dictionary holds 7 for origin 3 afterwards. *)
Lemma C5_later_request_overwrites :
  ¬ (∀ pre mid post o d c,
       o ≠ 11 → d ≠ 11 → d ≠ 12 → d ≠ o → c ≠ d →
       Forall (λ lc, lc.1 ≠ o) pre →
       let r := _parse_commands (pre ++ (o, d) :: mid ++ (o, c) :: post) in
       up_requests r !! o = Some (Some d)
       ∨ down_requests r !! o = Some (Some d)).
Proof.
  intros H.
  destruct (H [] [] [] 3 7 11) as [Hup|Hdown]; try done.
Qed.

(** C5, amended.  The last request for a hall origin decides the entry of
    the dictionary it is classified into: a direction marker stores [None], a
    concrete floor stores that floor, overwriting whatever an earlier request
    for that origin stored there; the entry of the other dictionary is the
    one the earlier requests left. *)
Theorem C5_last_request_wins pre post o c :
  o ≠ 11 →
  Forall (λ lc, lc.1 ≠ o) post →
  let r0 := _parse_commands pre in
  let r := _parse_commands (pre ++ (o, c) :: post) in
  (up_requests r !! o, down_requests r !! o)
  = if decide (c = 11) then (Some None, down_requests r0 !! o)
    else if decide (c = 12) then (up_requests r0 !! o, Some None)
    else if decide (o < c) then (Some (Some c), down_requests r0 !! o)
    else (up_requests r0 !! o, Some (Some c)).
Proof.
  intros Ho Hpost r0 r. subst r0 r.
  rewrite parse_commands_cons_app.
  destruct (foldl_parse_step_other post
              (parse_step (_parse_commands pre) (o, c)) o Hpost) as [-> ->].
  by apply parse_step_hall.
Qed.

Lemma C5_last_request_wins_witness :
  (up_requests (_parse_commands ([(3, 7)] ++ (3, 11) :: [(5, 12)])) !! 3,
   down_requests (_parse_commands ([(3, 7)] ++ (3, 11) :: [(5, 12)])) !! 3)
  = (Some None, down_requests (_parse_commands [(3, 7)]) !! 3).
Proof.
  apply (C5_last_request_wins [(3, 7)] [(5, 12)] 3 11); [lia|].
  repeat constructor; simpl; lia.
Defined.

(** ** The resolver counts set members *)

Lemma length_filter_elements (P : Z → Prop) `{!∀ x, Decision (P x)}
    (X : gset Z) :
  length (filter P (elements X)) = size (filter P X).
Proof.
  unfold size, set_size. simpl. apply Permutation_length.
  apply NoDup_Permutation.
  - apply NoDup_filter, NoDup_elements.
  - apply NoDup_elements.
  - intros x. rewrite list_elem_of_filter, !elem_of_elements, elem_of_filter.
    done.
Qed.

Lemma length_filter_sorted (P : Z → Prop) `{!∀ x, Decision (P x)} l :
  length (filter P (sorted l)) = length (filter P l).
Proof. apply Permutation_length. by rewrite sorted_perm. Qed.

Lemma length_filter_sorted_reverse (P : Z → Prop) `{!∀ x, Decision (P x)} l :
  length (filter P (sorted_reverse l)) = length (filter P l).
Proof. apply Permutation_length. by rewrite sorted_reverse_perm. Qed.

Lemma determine_initial_direction_totals self r :
  _determine_initial_direction self
    (sorted (keys (up_requests r)))
    (sorted_reverse (keys (down_requests r)))
    (sorted (elements (list_to_set (C := gset Z) (internal_requests r))))
  = if decide (totalDown (current_floor self) r
               ≤ totalUp (current_floor self) r)%nat
    then UP else DOWN.
Proof.
  unfold _determine_initial_direction, totalUp, totalDown, keys.
  rewrite !length_filter_sorted, !length_filter_sorted_reverse.
  rewrite !length_filter_elements.
  case_bool_decide; case_decide; done || lia.
Qed.

(** C7.  Called on the classified requests, the resolver returns UP exactly
    when totalUp >= totalDown (a tie gives UP) and DOWN otherwise, where
    totalUp counts the hall-up origins at or above the current floor and the
    cab destinations strictly above it, and totalDown the hall-down origins
    at or below it and the cab destinations strictly below; a call on a
    controller without direction stores that answer. *)
Theorem C7_resolver_majority self commands :
  let r := _parse_commands commands in
  let answer :=
    if decide (totalDown (current_floor self) r
               ≤ totalUp (current_floor self) r)%nat
    then UP else DOWN in
  _determine_initial_direction self
    (sorted (keys (up_requests r)))
    (sorted_reverse (keys (down_requests r)))
    (sorted (elements (list_to_set (C := gset Z) (internal_requests r))))
  = answer
  ∧ direction (process_commands (set_direction None self) commands).1
    = Some answer.
Proof.
  intros r answer. subst answer.
  split; [apply determine_initial_direction_totals|].
  unfold process_commands. rewrite calculate_state. fold r.
  unfold resolved. simpl.
  f_equal. apply (determine_initial_direction_totals (set_direction None self)).
Qed.

(** ** The controller across a call *)

Lemma process_commands_state self commands :
  (process_commands self commands).1 = resolved self (_parse_commands commands).
Proof. apply calculate_state. Qed.

Lemma resolved_direction self r :
  direction (resolved self r)
  = match direction self with
    | Some d => Some d
    | None =>
        Some (_determine_initial_direction self
                (sorted (keys (up_requests r)))
                (sorted_reverse (keys (down_requests r)))
                (sorted (elements
                           (list_to_set (C := gset Z) (internal_requests r)))))
    end.
Proof. unfold resolved. by destruct (direction self) eqn:E. Qed.

Lemma route_of_empty_stops self r :
  stops_of self r = ∅ → (_calculate_optimal_route self r).2 = [].
Proof.
  intros He. rewrite calculate_route, He. unfold above, below.
  rewrite elements_empty. by destruct (direction (resolved self r)) as [[]|].
Qed.

(** C6, as the specification states it, fails: a fresh controller (no
    direction) given the empty batch returns the empty route and comes back
    with direction UP. *)
Lemma C6_empty_batch_sets_direction :
  ¬ (∀ self commands,
       StopSet (current_floor self) (_parse_commands commands) = ∅ →
       (process_commands self commands).2 = []
       ∧ direction (process_commands self commands).1 = direction self).
Proof.
  intros H. destruct (H (init 1 10) []) as [_ Hdir]; [done|].
  vm_compute in Hdir. discriminate Hdir.
Qed.

(** C6, amended.  When the StopSet is empty the route is empty; a direction
    that was set is left as it is, and a controller without direction comes
    back with the resolver's answer stored (UP for the empty batch). *)
Theorem C6_empty_StopSet self commands :
  StopSet (current_floor self) (_parse_commands commands) = ∅ →
  (process_commands self commands).2 = []
  ∧ direction (process_commands self commands).1
    = match direction self with
      | Some d => Some d
      | None =>
          Some (if decide (totalDown (current_floor self)
                             (_parse_commands commands)
                           ≤ totalUp (current_floor self)
                               (_parse_commands commands))%nat
                then UP else DOWN)
      end
  ∧ direction (process_commands (set_direction None self) []).1 = Some UP.
Proof.
  intros He. split_and!.
  - apply route_of_empty_stops. apply set_eq. intros x.
    split; [|by intros ?%not_elem_of_empty].
    intros Hx%stops_of_subseteq. by rewrite He in Hx.
  - rewrite process_commands_state, resolved_direction.
    destruct (direction self); [done|].
    by rewrite determine_initial_direction_totals.
  - done.
Qed.

Lemma C6_empty_StopSet_witness :
  let self := init 7 10 in
  let commands := [(11, 7)] in
  (process_commands self commands).2 = []
  ∧ direction (process_commands self commands).1
    = Some (if decide (totalDown (current_floor self) (_parse_commands commands)
                       ≤ totalUp (current_floor self)
                           (_parse_commands commands))%nat
            then UP else DOWN)
  ∧ direction (process_commands (set_direction None self) []).1 = Some UP.
Proof.
  apply (C6_empty_StopSet (init 7 10) [(11, 7)]). by vm_compute.
Defined.

(** C9, as the specification states it, fails: a fresh controller at floor 1
    given the batch of test 4.3 comes back with direction UP where it had
    none. *)
Lemma C9_call_stores_direction :
  ¬ (∀ self commands,
       current_floor (process_commands self commands).1 = current_floor self
       ∧ direction (process_commands self commands).1 = direction self).
Proof.
  intros H. destruct (H (init 1 10) test_4_3) as [_ Hdir].
  vm_compute in Hdir. discriminate Hdir.
Qed.

(** C9, amended.  A call leaves [current_floor], [max_floor] and [stops] as
    they were, and moving the car is left to the caller; [direction] is the
    one field it may assign: it is kept when set, and becomes the resolver's
    answer when the controller had none. *)
Theorem C9_call_frame self commands :
  let self' := (process_commands self commands).1 in
  current_floor self' = current_floor self
  ∧ max_floor self' = max_floor self
  ∧ stops self' = stops self
  ∧ direction self'
    = match direction self with
      | Some d => Some d
      | None =>
          Some (if decide (totalDown (current_floor self)
                             (_parse_commands commands)
                           ≤ totalUp (current_floor self)
                               (_parse_commands commands))%nat
                then UP else DOWN)
      end.
Proof.
  intros self'. subst self'. rewrite process_commands_state.
  split_and!; try (unfold resolved; by destruct (direction self)).
  rewrite resolved_direction. destruct (direction self); [done|].
  by rewrite determine_initial_direction_totals.
Qed.

(** ** The direction is set once *)

Lemma step_direction self self' d :
  step self self' → direction self = Some d → direction self' = Some d.
Proof.
  intros Hstep Hd. destruct Hstep as [self commands|self floor]; [|done].
  by rewrite process_commands_state, resolved_direction, Hd.
Qed.

Lemma simulate_steps self commands : rtc step self (simulate self commands).
Proof.
  unfold simulate.
  pose proof (step_process self commands) as H.
  destruct (process_commands self commands) as [self1 route]. simpl in H.
  eapply rtc_l; [exact H|]. clear H.
  revert self1. induction route as [|floor route IH]; intros self1; [done|].
  simpl. eapply rtc_l; [apply (step_move self1 floor)|apply IH].
Qed.

(** C10.  Once the direction is set, no sequence of [process_commands]
    calls and car moves changes it: it is the same after one call, and
    after any number of calls and moves. *)
Theorem C10_direction_set_once self self' d :
  direction self = Some d →
  rtc step self self' →
  direction self' = Some d
  ∧ ∀ commands, direction (process_commands self' commands).1 = Some d.
Proof.
  intros Hd Hsteps.
  assert (direction self' = Some d) as Hd'.
  { induction Hsteps as [|x y z Hxy _ IH]; [done|].
    apply IH. by eapply step_direction. }
  split; [done|]. intros commands.
  eapply step_direction; [apply step_process|done].
Qed.

Lemma C10_direction_set_once_witness :
  direction (simulate (simulate (init 1 10) test_4_3) test_4_4) = Some UP
  ∧ ∀ commands,
      direction
        (process_commands (simulate (simulate (init 1 10) test_4_3) test_4_4)
           commands).1 = Some UP.
Proof.
  apply (C10_direction_set_once (simulate (init 1 10) test_4_3)).
  - by vm_compute.
  - apply simulate_steps.
Defined.

(** ** Regression vectors *)

Lemma stops_of_StopSet_nonzero self r :
  0 ∉ StopSet (current_floor self) r →
  stops_of self r = StopSet (current_floor self) r.
Proof.
  intros H0. apply set_eq. intros x. split; [apply stops_of_subseteq|].
  intros Hx. apply StopSet_stops_of; [done|]. by intros ->.
Qed.

(** With the same floor and StopSet as test 4.4 but hall-up calls only, the
    resolver's tie rule answers UP; the route is the same. *)
Example tie_at_top_floor :
  process_commands (init 10 10) [(3, 11); (5, 11); (7, 11)]
  = (set_direction (Some UP) (init 10 10), [7; 5; 3]).
Proof. by vm_compute. Qed.

(** C8, as the specification states it, fails: a fresh controller at
    floor 10 given hall-up calls only at floors 3, 5 and 7 has StopSet
    {3,5,7}, and its direction resolves to UP (no request counts for either
    total, and a tie gives UP), not to DOWN. *)
Lemma C8_tie_resolves_up :
  ¬ (∀ self commands,
       current_floor self = 10 → direction self = None →
       StopSet 10 (_parse_commands commands) = {[3; 5; 7]} →
       direction (process_commands self commands).1 = Some DOWN
       ∧ (process_commands self commands).2 = [7; 5; 3]).
Proof.
  intros H.
  destruct (H (init 10 10) [(3, 11); (5, 11); (7, 11)]) as [Hdir _];
    [done|done|by vm_compute|].
  vm_compute in Hdir. discriminate Hdir.
Qed.

(** C8, amended.  Scenario 2: at floor 10 with StopSet {3,5,7} the route is
    [7,5,3] whatever the direction; a controller without direction resolves
    DOWN when totalDown exceeds totalUp and UP otherwise, and on the batch
    of test 4.4 it resolves DOWN.  Scenario 3: at floor 4 with StopSet
    {3,5,7,10} and direction UP the route is [5,7,10,3], and the batch of
    test 4.5 on a fresh controller is such a case. *)
Theorem C8_regression_vectors self2 commands2 self3 commands3 :
  current_floor self2 = 10 →
  StopSet 10 (_parse_commands commands2) = {[3; 5; 7]} →
  current_floor self3 = 4 →
  StopSet 4 (_parse_commands commands3) = {[3; 5; 7; 10]} →
  direction (process_commands self3 commands3).1 = Some UP →
  (process_commands self2 commands2).2 = [7; 5; 3]
  ∧ (process_commands self3 commands3).2 = [5; 7; 10; 3]
  ∧ StopSet 10 (_parse_commands test_4_4) = {[3; 5; 7]}
  ∧ process_commands (init 10 10) test_4_4
    = (set_direction (Some DOWN) (init 10 10), [7; 5; 3])
  ∧ StopSet 4 (_parse_commands test_4_5) = {[3; 5; 7; 10]}
  ∧ process_commands (init 4 10) test_4_5
    = (set_direction (Some UP) (init 4 10), [5; 7; 10; 3])
  ∧ direction (process_commands (set_direction None self2) commands2).1
    = Some (if decide (totalDown 10 (_parse_commands commands2)
                       ≤ totalUp 10 (_parse_commands commands2))%nat
            then UP else DOWN).
Proof.
  intros Hc2 Hs2 Hc3 Hs3 Hd3.
  split; [|split; [|do 4 (split; [by vm_compute|])]].
  - unfold process_commands. rewrite calculate_route.
    rewrite stops_of_StopSet_nonzero; rewrite Hc2, Hs2; [|by vm_compute].
    change (above 10 {[3; 5; 7]}) with (@nil Z).
    change (below 10 {[3; 5; 7]}) with [7; 5; 3].
    destruct (direction (resolved self2 _)) as [[]|]; reflexivity.
  - unfold process_commands in *. rewrite calculate_route.
    rewrite calculate_state in Hd3. rewrite Hd3.
    rewrite stops_of_StopSet_nonzero; rewrite Hc3, Hs3; [|by vm_compute].
    by vm_compute.
  - rewrite process_commands_state, resolved_direction. simpl. f_equal.
    rewrite <- Hc2.
    apply (determine_initial_direction_totals (set_direction None self2)).
Qed.

Lemma C8_regression_vectors_witness :
  let self2 := init 10 10 in
  let commands2 := test_4_4 in
  (process_commands self2 commands2).2 = [7; 5; 3]
  ∧ (process_commands (init 4 10) test_4_5).2 = [5; 7; 10; 3]
  ∧ StopSet 10 (_parse_commands test_4_4) = {[3; 5; 7]}
  ∧ process_commands (init 10 10) test_4_4
    = (set_direction (Some DOWN) (init 10 10), [7; 5; 3])
  ∧ StopSet 4 (_parse_commands test_4_5) = {[3; 5; 7; 10]}
  ∧ process_commands (init 4 10) test_4_5
    = (set_direction (Some UP) (init 4 10), [5; 7; 10; 3])
  ∧ direction (process_commands (set_direction None self2) commands2).1
    = Some (if decide (totalDown 10 (_parse_commands commands2)
                       ≤ totalUp 10 (_parse_commands commands2))%nat
            then UP else DOWN).
Proof.
  apply (C8_regression_vectors (init 10 10) test_4_4 (init 4 10) test_4_5);
    by vm_compute.
Defined.

(** * Further properties of the controller *)

(** ** What the scheduler reads *)

(** The scheduler reads the two dictionaries and the set of cab
    destinations, nothing else of the classified requests. *)
Lemma calculate_requests_ext self r1 r2 :
  up_requests r1 = up_requests r2 →
  down_requests r1 = down_requests r2 →
  list_to_set (internal_requests r1) =@{gset Z}
    list_to_set (internal_requests r2) →
  _calculate_optimal_route self r1 = _calculate_optimal_route self r2.
Proof.
  intros Hu Hd Hi. unfold _calculate_optimal_route, all_stops_of.
  by rewrite Hu, Hd, Hi.
Qed.

Lemma req_equiv_calculate self r1 r2 :
  req_equiv r1 r2 →
  _calculate_optimal_route self r1 = _calculate_optimal_route self r2.
Proof.
  intros (Hu & Hd & Hi). apply calculate_requests_ext; [done..|].
  by rewrite Hi.
Qed.

Lemma stops_of_frame s1 s2 r :
  current_floor s1 = current_floor s2 → stops_of s1 r = stops_of s2 r.
Proof. intros Hc. unfold stops_of. by rewrite Hc. Qed.

Lemma resolved_direction_frame s1 s2 r :
  current_floor s1 = current_floor s2 → direction s1 = direction s2 →
  direction (resolved s1 r) = direction (resolved s2 r).
Proof.
  intros Hc Hd. rewrite !resolved_direction, Hd.
  destruct (direction s2); [done|].
  unfold _determine_initial_direction. by rewrite Hc.
Qed.

(** X1.  The route and the direction a call settles on depend on the
    controller through [current_floor] and [direction] only: [max_floor] and
    [stops] are never read. *)
Theorem process_commands_reads_floor_and_direction s1 s2 commands :
  current_floor s1 = current_floor s2 →
  direction s1 = direction s2 →
  (process_commands s1 commands).2 = (process_commands s2 commands).2
  ∧ direction (process_commands s1 commands).1
    = direction (process_commands s2 commands).1.
Proof.
  intros Hc Hd. unfold process_commands.
  rewrite !calculate_route, !calculate_state.
  rewrite (resolved_direction_frame s1 s2) by done.
  by rewrite (stops_of_frame s1 s2), Hc.
Qed.

Lemma process_commands_reads_floor_and_direction_witness :
  (process_commands (init 1 10) test_4_3).2
  = (process_commands (mkController 1 3 None [8; 9]) test_4_3).2
  ∧ direction (process_commands (init 1 10) test_4_3).1
    = direction (process_commands (mkController 1 3 None [8; 9]) test_4_3).1.
Proof.
  apply (process_commands_reads_floor_and_direction
           (init 1 10) (mkController 1 3 None [8; 9]) test_4_3);
    reflexivity.
Defined.

(** ** Where [simulate] leaves the car *)

Lemma foldl_set_current_floor route self :
  foldl (λ self floor, set_current_floor floor self) self route
  = set_current_floor (default (current_floor self) (last route)) self.
Proof.
  revert self. induction route as [|floor route IH]; intros self.
  - by destruct self.
  - simpl foldl. rewrite IH, last_cons. simpl.
    by destruct (last route).
Qed.

Lemma simulate_eq self commands :
  simulate self commands
  = set_current_floor
      (default (current_floor self) (last (process_commands self commands).2))
      (process_commands self commands).1.
Proof.
  unfold simulate.
  pose proof (process_commands_state self commands) as Hs.
  destruct (process_commands self commands) as [self' route]. simpl in *.
  rewrite foldl_set_current_floor. subst self'.
  by rewrite resolved_current_floor.
Qed.

(** X2.  [simulate] leaves the car on the last floor of the route, and
    where it stood exactly when the route is empty; the direction is the
    one the call settled on, and [max_floor] and [stops] are untouched.
    [run_test], which starts from a fresh controller, always ends with the
    resolver's answer for its batch as direction. *)
Theorem simulate_final_state self commands :
  let route := (process_commands self commands).2 in
  current_floor (simulate self commands)
  = default (current_floor self) (last route)
  ∧ (current_floor (simulate self commands) = current_floor self ↔ route = [])
  ∧ direction (simulate self commands)
    = direction (process_commands self commands).1
  ∧ max_floor (simulate self commands) = max_floor self
  ∧ stops (simulate self commands) = stops self
  ∧ direction (run_test (current_floor self) commands)
    = Some (if decide (totalDown (current_floor self) (_parse_commands commands)
                       ≤ totalUp (current_floor self)
                           (_parse_commands commands))%nat
            then UP else DOWN).
Proof.
  intros route. subst route. unfold run_test. rewrite !simulate_eq.
  change (current_floor (set_current_floor ?f _)) with f.
  change (direction (set_current_floor _ ?s)) with (direction s).
  change (max_floor (set_current_floor _ ?s)) with (max_floor s).
  change (stops (set_current_floor _ ?s)) with (stops s).
  split_and!; try done.
  - split.
    + intros Heq.
      destruct (last (process_commands self commands).2) as [f|] eqn:El.
      * simpl in Heq. subst f. apply last_Some_elem_of in El.
        unfold process_commands in El.
        apply elem_of_route, elem_of_stops_of in El. by destruct El.
      * by apply last_None in El.
    + by intros ->.
  - rewrite process_commands_state. unfold resolved.
    by destruct (direction self).
  - rewrite process_commands_state. unfold resolved.
    by destruct (direction self).
  - rewrite process_commands_state, resolved_direction. simpl. f_equal.
    apply (determine_initial_direction_totals
             (init (current_floor self) 10)).
Qed.

(** ** What classification stores *)

(** One iteration, entry by entry. *)
Lemma parse_step_lookup r o' c' o :
  up_requests (parse_step r (o', c')) !! o
  = (if decide (o' = o ∧ o' ≠ 11 ∧ goes_up o' c')
     then Some (stored c') else up_requests r !! o)
  ∧ down_requests (parse_step r (o', c')) !! o
    = (if decide (o' = o ∧ o' ≠ 11 ∧ ¬ goes_up o' c')
       then Some (stored c') else down_requests r !! o).
Proof.
  unfold parse_step, goes_up, stored. simpl Direction_value.
  destruct (Z.eqb_spec o' 11) as [Ho|Ho]; simpl.
  { split; rewrite decide_False; tauto || done. }
  destruct (Z.eqb_spec c' 11) as [Hc1|Hc1]; simpl.
  { rewrite lookup_insert. split; repeat case_decide; done || tauto || lia. }
  destruct (Z.eqb_spec c' 12) as [Hc2|Hc2]; simpl.
  { rewrite lookup_insert. split; repeat case_decide; done || tauto || lia. }
  destruct (Z.gtb_spec c' o') as [Hgt|Hle]; simpl.
  - rewrite lookup_insert. split; repeat case_decide; done || tauto || lia.
  - rewrite lookup_insert. split; repeat case_decide; done || tauto || lia.
Qed.

Lemma parse_step_internal r o c :
  internal_requests (parse_step r (o, c))
  = internal_requests r ++ (if decide (o = 11) then [c] else []).
Proof.
  unfold parse_step.
  destruct (Z.eqb_spec o 11) as [Ho|Ho]; simpl.
  - by rewrite decide_True.
  - rewrite decide_False, app_nil_r by done. by repeat case_match.
Qed.

Lemma parse_commands_internal commands :
  internal_requests (_parse_commands commands) = cab_destinations commands.
Proof.
  unfold cab_destinations.
  induction commands as [|[o c] commands IH] using rev_ind; [done|].
  rewrite parse_commands_snoc, parse_step_internal, IH.
  rewrite filter_app, fmap_app. f_equal.
  case_decide as Ho.
  - by rewrite filter_cons_True.
  - by rewrite filter_cons_False.
Qed.

Lemma parse_commands_up_origin commands o v :
  up_requests (_parse_commands commands) !! o = Some v →
  ∃ c, (o, c) ∈ commands ∧ o ≠ 11 ∧ goes_up o c ∧ v = stored c.
Proof.
  induction commands as [|[o' c'] commands IH] using rev_ind.
  - simpl. by rewrite lookup_empty.
  - rewrite parse_commands_snoc.
    destruct (parse_step_lookup (_parse_commands commands) o' c' o) as [-> _].
    case_decide as H.
    + destruct H as (-> & Ho & Hup). intros [= <-].
      exists c'. split_and!; try done. apply elem_of_app. right. left.
    + intros (c & Hin & Hrest)%IH. exists c. split; [|done].
      apply elem_of_app. by left.
Qed.

Lemma parse_commands_down_origin commands o v :
  down_requests (_parse_commands commands) !! o = Some v →
  ∃ c, (o, c) ∈ commands ∧ o ≠ 11 ∧ ¬ goes_up o c ∧ v = stored c.
Proof.
  induction commands as [|[o' c'] commands IH] using rev_ind.
  - simpl. by rewrite lookup_empty.
  - rewrite parse_commands_snoc.
    destruct (parse_step_lookup (_parse_commands commands) o' c' o) as [_ ->].
    case_decide as H.
    + destruct H as (-> & Ho & Hup). intros [= <-].
      exists c'. split_and!; try done. apply elem_of_app. right. left.
    + intros (c & Hin & Hrest)%IH. exists c. split; [|done].
      apply elem_of_app. by left.
Qed.

Lemma parse_commands_hall_key commands o c :
  (o, c) ∈ commands → o ≠ 11 →
  if decide (goes_up o c)
  then o ∈ dom (up_requests (_parse_commands commands))
  else o ∈ dom (down_requests (_parse_commands commands)).
Proof.
  intros (pre & post & ->)%list_elem_of_split Ho.
  rewrite parse_commands_cons_app.
  destruct (foldl_parse_step_mono post (parse_step (_parse_commands pre) (o, c)))
    as (Hu & Hd & _).
  destruct (parse_step_lookup (_parse_commands pre) o c o) as [Hup Hdown].
  destruct (decide (goes_up o c)) as [Hg|Hg].
  - apply Hu, elem_of_dom. rewrite Hup, decide_True by done. by eexists.
  - apply Hd, elem_of_dom. rewrite Hdown, decide_True by done. by eexists.
Qed.

(** X3.  The cab list is the list of commands of the requests with origin
    11, in batch order and with repetitions; it is the scheduler that
    removes repetitions later. *)
Theorem cab_list_is_batch_order commands :
  internal_requests (_parse_commands commands) = cab_destinations commands
  ∧ length (internal_requests (_parse_commands commands))
    = length (filter (λ lc, lc.1 = 11) commands).
Proof.
  rewrite parse_commands_internal. split; [done|].
  unfold cab_destinations. by rewrite length_fmap.
Qed.

(** X4.  The keys of the two hall dictionaries are exactly the origins of
    the hall requests classified up, respectively down, and every entry was
    written by such a request: its value is [None] for a marker and the
    commanded floor otherwise. *)
Theorem hall_dictionaries_exact commands :
  let r := _parse_commands commands in
  (∀ o, o ∈ dom (up_requests r)
        ↔ ∃ c, (o, c) ∈ commands ∧ o ≠ 11 ∧ goes_up o c)
  ∧ (∀ o, o ∈ dom (down_requests r)
          ↔ ∃ c, (o, c) ∈ commands ∧ o ≠ 11 ∧ ¬ goes_up o c)
  ∧ (∀ o v, up_requests r !! o = Some v →
            ∃ c, (o, c) ∈ commands ∧ o ≠ 11 ∧ goes_up o c ∧ v = stored c)
  ∧ (∀ o v, down_requests r !! o = Some v →
            ∃ c, (o, c) ∈ commands ∧ o ≠ 11 ∧ ¬ goes_up o c ∧ v = stored c).
Proof.
  intros r. subst r. split_and!.
  - intros o. rewrite elem_of_dom. split.
    + intros [v (c & ? & ? & ? & _)%parse_commands_up_origin]. eauto.
    + intros (c & Hin & Ho & Hg).
      pose proof (parse_commands_hall_key _ _ _ Hin Ho) as H.
      rewrite decide_True in H by done. by apply elem_of_dom.
  - intros o. rewrite elem_of_dom. split.
    + intros [v (c & ? & ? & ? & _)%parse_commands_down_origin]. eauto.
    + intros (c & Hin & Ho & Hg).
      pose proof (parse_commands_hall_key _ _ _ Hin Ho) as H.
      rewrite decide_False in H by done. by apply elem_of_dom.
  - apply parse_commands_up_origin.
  - apply parse_commands_down_origin.
Qed.

(** ** The order of a batch *)

Global Instance req_equiv_equivalence : Equivalence req_equiv.
Proof.
  split.
  - by intros r.
  - intros r1 r2 (? & ? & ?). by split_and!.
  - intros r1 r2 r3 (? & ? & ?) (? & ? & ?).
    split_and!; by etrans.
Qed.

Lemma parse_step_equiv r1 r2 lc :
  req_equiv r1 r2 → req_equiv (parse_step r1 lc) (parse_step r2 lc).
Proof.
  destruct lc as [o c]. intros (Hu & Hd & Hi). unfold req_equiv.
  rewrite !parse_step_internal, Hi. split_and!; [| |done].
  - apply map_eq. intros i.
    destruct (parse_step_lookup r1 o c i) as [-> _].
    destruct (parse_step_lookup r2 o c i) as [-> _]. by rewrite Hu.
  - apply map_eq. intros i.
    destruct (parse_step_lookup r1 o c i) as [_ ->].
    destruct (parse_step_lookup r2 o c i) as [_ ->]. by rewrite Hd.
Qed.

Lemma foldl_parse_step_equiv l r1 r2 :
  req_equiv r1 r2 → req_equiv (foldl parse_step r1 l) (foldl parse_step r2 l).
Proof.
  revert r1 r2. induction l as [|lc l IH]; intros r1 r2 H; [done|].
  simpl. by apply IH, parse_step_equiv.
Qed.

(** Two consecutive requests can be exchanged unless they are hall requests
    from the same origin. *)
Lemma parse_step_swap r x y :
  x.1 = 11 ∨ y.1 = 11 ∨ x.1 ≠ y.1 →
  req_equiv (parse_step (parse_step r x) y) (parse_step (parse_step r y) x).
Proof.
  destruct x as [ox cx], y as [oy cy]. intros Hxy. simpl in Hxy.
  unfold req_equiv.
  rewrite !parse_step_internal. split_and!.
  - apply map_eq. intros i.
    destruct (parse_step_lookup (parse_step r (ox, cx)) oy cy i) as [-> _].
    destruct (parse_step_lookup (parse_step r (oy, cy)) ox cx i) as [-> _].
    destruct (parse_step_lookup r ox cx i) as [-> _].
    destruct (parse_step_lookup r oy cy i) as [-> _].
    repeat case_decide; try done; lia.
  - apply map_eq. intros i.
    destruct (parse_step_lookup (parse_step r (ox, cx)) oy cy i) as [_ ->].
    destruct (parse_step_lookup (parse_step r (oy, cy)) ox cx i) as [_ ->].
    destruct (parse_step_lookup r ox cx i) as [_ ->].
    destruct (parse_step_lookup r oy cy i) as [_ ->].
    repeat case_decide; try done; lia.
  - rewrite <- !(assoc_L (++)). apply Permutation_app_head, Permutation_app_comm.
Qed.

Lemma hall_origins_cons_NoDup lc l :
  NoDup (hall_requests (lc :: l)).*1 →
  NoDup (hall_requests l).*1
  ∧ ∀ lc', lc' ∈ l → lc.1 = 11 ∨ lc'.1 = 11 ∨ lc.1 ≠ lc'.1.
Proof.
  unfold hall_requests. intros Hnd.
  destruct (decide (lc.1 = 11)) as [Hc|Hc].
  - rewrite filter_cons_False in Hnd by tauto. split; [done|]. by left.
  - rewrite filter_cons_True in Hnd by done. simpl in Hnd.
    apply NoDup_cons in Hnd as [Hnotin Hnd]. split; [done|].
    intros lc' Hin. destruct (decide (lc'.1 = 11)) as [|Hc']; [tauto|].
    right; right. intros Heq. apply Hnotin. rewrite Heq.
    apply list_elem_of_fmap_2, list_elem_of_filter. done.
Qed.

Lemma foldl_parse_step_Permutation l l' :
  l ≡ₚ l' → NoDup (hall_requests l).*1 →
  ∀ r, req_equiv (foldl parse_step r l) (foldl parse_step r l').
Proof.
  induction 1 as [|x l l' Hp IH|x y l|l l' l'' Hp1 IH1 Hp2 IH2];
    intros Hnd r.
  - done.
  - simpl. apply IH. by apply hall_origins_cons_NoDup in Hnd as [? _].
  - simpl. apply foldl_parse_step_equiv, parse_step_swap.
    apply hall_origins_cons_NoDup in Hnd as [_ Hy].
    destruct (Hy x) as [?|[?|?]]; [left|tauto..]. 
  - etrans; [by apply IH1|]. apply IH2.
    unfold hall_requests. by rewrite <- Hp1.
Qed.

(** X5.  When no two hall requests of a batch share an origin, the order of
    the batch does not matter: any rearrangement gives the same route and
    the same controller. *)
Theorem process_commands_batch_order self commands commands' :
  commands ≡ₚ commands' →
  NoDup (hall_requests commands).*1 →
  process_commands self commands = process_commands self commands'.
Proof.
  intros Hp Hnd. unfold process_commands.
  apply req_equiv_calculate. unfold _parse_commands.
  by apply foldl_parse_step_Permutation.
Qed.

Lemma process_commands_batch_order_witness :
  process_commands (init 4 10) test_4_5
  = process_commands (init 4 10) (reverse test_4_5).
Proof.
  apply (process_commands_batch_order (init 4 10) test_4_5 (reverse test_4_5)).
  - symmetry. apply reverse_Permutation.
  - apply (bool_decide_unpack _). by vm_compute.
Defined.

(** ** Cab requests count as a set *)

Lemma foldl_parse_step_hall_requests l r1 r2 :
  up_requests r1 = up_requests r2 → down_requests r1 = down_requests r2 →
  up_requests (foldl parse_step r1 l)
  = up_requests (foldl parse_step r2 (hall_requests l))
  ∧ down_requests (foldl parse_step r1 l)
    = down_requests (foldl parse_step r2 (hall_requests l)).
Proof.
  unfold hall_requests.
  revert r1 r2. induction l as [|[o c] l IH]; intros r1 r2 Hu Hd; [done|].
  change (foldl parse_step r1 ((o, c) :: l))
    with (foldl parse_step (parse_step r1 (o, c)) l).
  assert (∀ r r', up_requests r = up_requests r' →
                  down_requests r = down_requests r' →
                  up_requests (parse_step r (o, c))
                  = up_requests (parse_step r' (o, c))
                  ∧ down_requests (parse_step r (o, c))
                    = down_requests (parse_step r' (o, c))) as Hstep.
  { intros r r' Hu' Hd'. split; apply map_eq; intros i.
    - destruct (parse_step_lookup r o c i) as [-> _].
      destruct (parse_step_lookup r' o c i) as [-> _]. by rewrite Hu'.
    - destruct (parse_step_lookup r o c i) as [_ ->].
      destruct (parse_step_lookup r' o c i) as [_ ->]. by rewrite Hd'. }
  destruct (decide (o = 11)) as [->|Ho].
  - rewrite filter_cons_False by (simpl; tauto).
    apply IH.
    + rewrite <- Hu. apply map_eq. intros i.
      destruct (parse_step_lookup r1 11 c i) as [-> _].
      rewrite decide_False; tauto || done.
    + rewrite <- Hd. apply map_eq. intros i.
      destruct (parse_step_lookup r1 11 c i) as [_ ->].
      rewrite decide_False; tauto || done.
  - rewrite filter_cons_True by done.
    change (foldl parse_step r2 ((o, c) :: ?k))
      with (foldl parse_step (parse_step r2 (o, c)) k).
    destruct (Hstep r1 r2 Hu Hd). by apply IH.
Qed.

(** X6.  Cab requests matter only through the set of their destinations:
    two batches with the same hall requests in the same order and the same
    set of cab destinations, however placed and however often repeated, give
    the same route and the same controller. *)
Theorem process_commands_cab_set self commands commands' :
  hall_requests commands = hall_requests commands' →
  list_to_set (cab_destinations commands) =@{gset Z}
    list_to_set (cab_destinations commands') →
  process_commands self commands = process_commands self commands'.
Proof.
  intros Hh Hc. unfold process_commands.
  destruct (foldl_parse_step_hall_requests commands
              empty_requests empty_requests eq_refl eq_refl) as [Hu Hd].
  destruct (foldl_parse_step_hall_requests commands'
              empty_requests empty_requests eq_refl eq_refl) as [Hu' Hd'].
  apply calculate_requests_ext.
  - unfold _parse_commands. by rewrite Hu, Hu', Hh.
  - unfold _parse_commands. by rewrite Hd, Hd', Hh.
  - by rewrite !parse_commands_internal.
Qed.

Lemma process_commands_cab_set_witness :
  process_commands (init 4 10) [(11, 7); (3, 12); (11, 2); (11, 7)]
  = process_commands (init 4 10) [(3, 12); (11, 2); (11, 7)].
Proof.
  apply (process_commands_cab_set (init 4 10)
           [(11, 7); (3, 12); (11, 2); (11, 7)] [(3, 12); (11, 2); (11, 7)]);
    by vm_compute.
Defined.

(** ** The first stop *)

Lemma head_sorted_above current s f :
  f ∈ s → current < f →
  ∃ h, head (above current s) = Some h ∧ current < h ∧ h ≤ f.
Proof.
  intros Hs Hf.
  destruct (above_spec current s) as (Hsorted & _ & Hmem).
  assert (f ∈ above current s) as Hin by by apply Hmem.
  destruct (above current s) as [|h t] eqn:E.
  { by apply elem_of_nil in Hin. }
  exists h. split; [done|].
  assert (h ∈ h :: t) as Hh by left. apply Hmem in Hh as [_ Hh].
  split; [done|].
  apply elem_of_cons in Hin as [->|Hin]; [lia|].
  apply Sorted_lt_head in Hsorted.
  pose proof (proj1 (Forall_forall _ _) Hsorted f Hin). simpl in *. lia.
Qed.

Lemma head_sorted_below current s f :
  f ∈ s → f < current →
  ∃ h, head (below current s) = Some h ∧ f ≤ h ∧ h < current.
Proof.
  intros Hs Hf.
  destruct (below_spec current s) as (Hsorted & _ & Hmem).
  assert (f ∈ below current s) as Hin by by apply Hmem.
  destruct (below current s) as [|h t] eqn:E.
  { by apply elem_of_nil in Hin. }
  exists h. split; [done|].
  assert (h ∈ h :: t) as Hh by left. apply Hmem in Hh as [_ Hh].
  split; [|done].
  apply elem_of_cons in Hin as [->|Hin]; [lia|].
  apply Sorted_gt_head in Hsorted.
  pose proof (proj1 (Forall_forall _ _) Hsorted f Hin). simpl in *. lia.
Qed.

(** X7.  When a stop of the route lies on the side the car is heading for
    (above it under UP, below it under DOWN), the first stop of the route is
    the nearest stop on that side. *)
Theorem first_stop_is_nearest_ahead self commands f :
  let self' := (process_commands self commands).1 in
  let route := (process_commands self commands).2 in
  f ∈ route →
  direction self' = Some (if bool_decide (current_floor self < f)
                          then UP else DOWN) →
  ∃ h, head route = Some h
       ∧ (current_floor self < h ≤ f ∨ f ≤ h < current_floor self).
Proof.
  intros self' route. subst self' route. unfold process_commands.
  rewrite elem_of_route, calculate_route, calculate_state.
  intros Hf Hdir. rewrite Hdir.
  assert (f ≠ current_floor self) as Hne.
  { apply elem_of_stops_of in Hf. tauto. }
  case_bool_decide as Hlt.
  - destruct (head_sorted_above _ _ _ Hf Hlt) as (h & Hh & ?).
    exists h. split; [|lia].
    destruct (above _ _); [done|]. done.
  - assert (f < current_floor self) as Hlt' by lia.
    destruct (head_sorted_below _ _ _ Hf Hlt') as (h & Hh & ?).
    exists h. split; [|lia].
    destruct (below _ _); [done|]. done.
Qed.

Lemma first_stop_is_nearest_ahead_witness :
  ∃ h, head (process_commands (init 4 10) test_4_5).2 = Some h
       ∧ (4 < h ≤ 10 ∨ 10 ≤ h < 4).
Proof.
  apply (first_stop_is_nearest_ahead (init 4 10) test_4_5 10).
  - vm_compute. do 2 right. left.
  - by vm_compute.
Defined.

(** ** Where the floors of a route come from *)

Lemma elem_of_cab_destinations commands f :
  f ∈ cab_destinations commands ↔ (11, f) ∈ commands.
Proof.
  unfold cab_destinations. rewrite list_elem_of_fmap. split.
  - intros ([o c] & -> & [Ho Hin]%list_elem_of_filter). simpl in *.
    by subst o.
  - intros Hin. exists (11, f). split; [done|].
    by apply list_elem_of_filter.
Qed.

Lemma stored_Some c f : stored c = Some f → c = f ∧ f ≠ 11 ∧ f ≠ 12.
Proof.
  unfold stored. case_decide as H; [done|]. intros [= ->]. lia.
Qed.

Lemma route_floor_origin self commands f :
  f ∈ (process_commands self commands).2 →
  (∃ c, (f, c) ∈ hall_requests commands)
  ∨ (∃ o, (o, f) ∈ hall_requests commands ∧ f ≠ 11 ∧ f ≠ 12 ∧ f ≠ 0)
  ∨ (11, f) ∈ commands.
Proof.
  unfold process_commands, hall_requests.
  rewrite elem_of_route, elem_of_stops_of, !elem_of_known_destinations.
  rewrite !elem_of_dom. setoid_rewrite list_elem_of_filter.
  intros [_ [[v H]|[[[o H] ?]|[[v H]|[[[o H] ?]|H]]]]].
  - apply parse_commands_up_origin in H as (c & ? & ? & _). left. eauto.
  - apply parse_commands_up_origin in H as (c & ? & ? & _ & Hs).
    symmetry in Hs. apply stored_Some in Hs as (-> & ? & ?).
    right; left. exists o. eauto.
  - apply parse_commands_down_origin in H as (c & ? & ? & _). left. eauto.
  - apply parse_commands_down_origin in H as (c & ? & ? & _ & Hs).
    symmetry in Hs. apply stored_Some in Hs as (-> & ? & ?).
    right; left. exists o. eauto.
  - right; right. apply elem_of_cab_destinations.
    by rewrite <- parse_commands_internal.
Qed.

(** X8.  A route never invents a floor: each of its floors is the origin
    of a hall request, the floor a hall request asks for (never a marker
    11 or 12, never 0), or the destination of a cab request.  So a route has
    at most two stops for each hall request and one for each cab request. *)
Theorem route_floors_come_from_batch self commands :
  let route := (process_commands self commands).2 in
  (∀ f, f ∈ route →
        (∃ c, (f, c) ∈ hall_requests commands)
        ∨ (∃ o, (o, f) ∈ hall_requests commands ∧ f ≠ 11 ∧ f ≠ 12 ∧ f ≠ 0)
        ∨ (11, f) ∈ commands)
  ∧ (length route
     ≤ 2 * length (hall_requests commands)
       + length (cab_destinations commands))%nat
  ∧ (length route ≤ 2 * length commands)%nat.
Proof.
  intros route. subst route.
  assert (length (process_commands self commands).2
          ≤ 2 * length (hall_requests commands)
            + length (cab_destinations commands))%nat as Hlen.
  { transitivity (length ((hall_requests commands).*1
                          ++ (hall_requests commands).*2
                          ++ cab_destinations commands)).
    - apply submseteq_length, NoDup_submseteq; [apply NoDup_route|].
      intros f [[c H]|[(o & H & _)|H]]%route_floor_origin;
        rewrite !elem_of_app.
      + left. by apply (list_elem_of_fmap_2 fst) in H.
      + right; left. by apply (list_elem_of_fmap_2 snd) in H.
      + right; right. by apply elem_of_cab_destinations.
    - rewrite !length_app, !length_fmap. lia. }
  split_and!; [apply route_floor_origin|done|].
  etrans; [exact Hlen|].
  unfold cab_destinations, hall_requests. rewrite length_fmap.
  pose proof (filter_app_complement (λ lc : Z * Z, lc.1 = 11) commands) as Hp.
  apply Permutation_length in Hp. rewrite length_app in Hp.
  pose proof (length_filter (λ lc : Z * Z, lc.1 = 11) commands).
  lia.
Qed.

(** X9.  For any batch, valid or not, the floors of the route are those of
    the StopSet, except that floor 0 is visited only when it is the origin
    of a hall request or a cab destination: as the destination of a hall
    request it is skipped by [if target:]. *)
Theorem route_members_any_batch self commands f :
  let r := _parse_commands commands in
  f ∈ (process_commands self commands).2
  ↔ f ∈ StopSet (current_floor self) r
    ∧ (f = 0 → 0 ∈ dom (up_requests r) ∨ 0 ∈ dom (down_requests r)
               ∨ 0 ∈ internal_requests r).
Proof.
  intros r. subst r. unfold process_commands, StopSet.
  rewrite elem_of_route, elem_of_stops_of.
  rewrite elem_of_difference, !elem_of_union, elem_of_list_to_set.
  rewrite elem_of_singleton.
  split.
  - intros [Hne H]. split; [tauto|]. intros ->. tauto.
  - intros [[H Hne] H0]. split; [done|].
    destruct (decide (f = 0)) as [->|Hf]; tauto.
Qed.

(** A hall request for floor 0 from floor 5, seen from floor 1: the car
    stops at 5 only. *)
Example destination_zero_is_skipped :
  (process_commands (init 1 10) [(5, 0)]).2 = [5].
Proof. by vm_compute. Qed.

(** ** Distance covered *)

Lemma travel_app c l1 l2 :
  travel c (l1 ++ l2) = travel c l1 + travel (default c (last l1)) l2.
Proof.
  revert c. induction l1 as [|x l1 IH]; intros c; [simpl; lia|].
  simpl travel. rewrite IH, last_cons.
  destruct (last l1); simpl; lia.
Qed.

Lemma travel_ascending l c :
  Sorted Z.lt l → Forall (λ f, c < f) l →
  travel c l = default c (last l) - c.
Proof.
  revert c. induction l as [|x l IH]; intros c Hs Hc; [simpl; lia|].
  apply Forall_cons in Hc as [Hx _].
  simpl travel. rewrite IH, last_cons.
  - destruct (last l); simpl; lia.
  - by apply Sorted_inv in Hs as [? _].
  - by apply Sorted_lt_head.
Qed.

Lemma travel_descending l c :
  Sorted (flip Z.lt) l → Forall (λ f, f < c) l →
  travel c l = c - default c (last l).
Proof.
  revert c. induction l as [|x l IH]; intros c Hs Hc; [simpl; lia|].
  apply Forall_cons in Hc as [Hx _].
  simpl travel. rewrite IH, last_cons.
  - destruct (last l); simpl; lia.
  - by apply Sorted_inv in Hs as [? _].
  - by apply Sorted_gt_head.
Qed.

Lemma travel_up_down c lo hi up_run down_run :
  Sorted Z.lt up_run → Forall (λ f, c < f ∧ f ≤ hi) up_run →
  Sorted (flip Z.lt) down_run → Forall (λ f, lo ≤ f ∧ f < c) down_run →
  lo ≤ c ≤ hi →
  travel c (up_run ++ down_run) ≤ (hi - c) + (hi - lo)
  ∧ travel c (down_run ++ up_run) ≤ (c - lo) + (hi - lo).
Proof.
  intros Hus Hu Hds Hd Hc. rewrite !travel_app.
  pose proof (last_Forall (λ f, c ≤ f ∧ f ≤ hi) up_run c) as Htop.
  pose proof (last_Forall (λ f, lo ≤ f ∧ f ≤ c) down_run c) as Hbot.
  simpl in Htop, Hbot.
  destruct Htop as [Htop1 Htop2];
    [lia|eapply Forall_impl; [exact Hu|]; simpl; lia|].
  destruct Hbot as [Hbot1 Hbot2];
    [lia|eapply Forall_impl; [exact Hd|]; simpl; lia|].
  rewrite (travel_ascending up_run c), (travel_descending down_run c);
    [|done|eapply Forall_impl; [exact Hd|]; simpl; lia
     |done|eapply Forall_impl; [exact Hu|]; simpl; lia].
  rewrite (travel_descending down_run (default c (last up_run))),
    (travel_ascending up_run (default c (last down_run)));
    [|done|eapply Forall_impl; [exact Hu|]; simpl; lia
     |done|eapply Forall_impl; [exact Hd|]; simpl; lia].
  pose proof (last_Forall (λ f, lo ≤ f)
                down_run (default c (last up_run))) as Hb.
  pose proof (last_Forall (λ f, f ≤ hi)
                up_run (default c (last down_run))) as Ht.
  simpl in Hb, Ht.
  assert (lo ≤ default (default c (last up_run)) (last down_run)).
  { apply Hb; [lia|]. eapply Forall_impl; [exact Hd|]. simpl. lia. }
  assert (default (default c (last down_run)) (last up_run) ≤ hi).
  { apply Ht; [lia|]. eapply Forall_impl; [exact Hu|]. simpl. lia. }
  lia.
Qed.

(** X10.  The car sweeps once in its direction and once back: if the
    current floor and all stops lie between floors [lo] and [hi], the
    floors covered along the route are at most [(hi - current) + (hi - lo)]
    under UP and [(current - lo) + (hi - lo)] under DOWN, so never more
    than twice [hi - lo]. *)
Theorem route_travel_bound self commands lo hi :
  let self' := (process_commands self commands).1 in
  let route := (process_commands self commands).2 in
  lo ≤ current_floor self ≤ hi →
  Forall (λ f, lo ≤ f ≤ hi) route →
  travel (current_floor self) route
  ≤ (hi - lo) + (if bool_decide (direction self' = Some UP)
                 then hi - current_floor self
                 else current_floor self - lo)
  ∧ travel (current_floor self) route ≤ 2 * (hi - lo).
Proof.
  intros self' route. subst self' route. unfold process_commands.
  rewrite calculate_state. intros Hc Hall.
  assert (∀ f, f ∈ stops_of self (_parse_commands commands) → lo ≤ f ≤ hi)
    as Hin.
  { intros f Hf. apply (proj1 (Forall_forall _ _) Hall f).
    by apply elem_of_route. }
  rewrite calculate_route.
  set (s := stops_of self (_parse_commands commands)) in *.
  destruct (above_spec (current_floor self) s) as (Hus & _ & Hu).
  destruct (below_spec (current_floor self) s) as (Hds & _ & Hd).
  assert (Forall (λ f, current_floor self < f ∧ f ≤ hi)
            (above (current_floor self) s)) as Hua.
  { apply Forall_forall. intros f [Hf ?]%Hu. specialize (Hin f Hf). lia. }
  assert (Forall (λ f, lo ≤ f ∧ f < current_floor self)
            (below (current_floor self) s)) as Hda.
  { apply Forall_forall. intros f [Hf ?]%Hd. specialize (Hin f Hf). lia. }
  destruct (travel_up_down _ lo hi _ _ Hus Hua Hds Hda Hc) as [H1 H2].
  destruct (direction (resolved self (_parse_commands commands)))
    as [[]|]; simpl; lia.
Qed.

Lemma route_travel_bound_witness :
  travel 4 (process_commands (init 4 10) test_4_5).2
  ≤ (10 - 1) + (if bool_decide
                     (direction (process_commands (init 4 10) test_4_5).1
                      = Some UP)
                then 10 - 4 else 4 - 1)
  ∧ travel 4 (process_commands (init 4 10) test_4_5).2 ≤ 2 * (10 - 1).
Proof.
  apply (route_travel_bound (init 4 10) test_4_5 1 10).
  - simpl. lia.
  - apply (bool_decide_unpack _). by vm_compute.
Defined.

(** ** What no call writes *)

Lemma step_frame self self' :
  step self self' →
  max_floor self' = max_floor self ∧ stops self' = stops self.
Proof.
  intros [s commands|s floor]; [|done].
  rewrite process_commands_state. unfold resolved.
  by destruct (direction s).
Qed.

(** X11.  No call and no move writes [max_floor] or [stops]: over the
    whole life of a controller created by [__init__] the stop record stays
    empty and [max_floor] keeps its initial value, and [simulate] and
    [run_test] are such lives. *)
Theorem stops_are_never_recorded initial_floor maxf self' :
  rtc step (init initial_floor maxf) self' →
  stops self' = [] ∧ max_floor self' = maxf.
Proof.
  intros Hsteps.
  assert (∀ s s', rtc step s s' →
                  stops s' = stops s ∧ max_floor s' = max_floor s) as Hinv.
  { induction 1 as [|x y z Hxy _ [IH1 IH2]]; [done|].
    apply step_frame in Hxy as [? ?]. split; congruence. }
  by apply Hinv in Hsteps.
Qed.

Lemma stops_are_never_recorded_witness :
  stops (simulate (run_test 1 test_4_3) test_4_4) = []
  ∧ max_floor (simulate (run_test 1 test_4_3) test_4_4) = 10.
Proof.
  apply (stops_are_never_recorded 1 10).
  unfold run_test.
  etrans; apply simulate_steps.
Defined.

(** ** Where the trip ends *)





